(** * voice-to-md: speaker diarization and transcript alignment

    A shallow embedding of [src/diarizer.py] ([Diarizer.diarize]) and of
    [src/main.py] ([VoiceToMdApp._assign_speakers]), with the properties
    the specification states about them.

    Conventions of the embedding.
    - A Python [int] is a [Z]; [len(x)] is [Z.of_nat (length x)].
    - A Python [float] holding a time in seconds is the rational it
      denotes ([Q]).  Every float the diarizer computes comes out of one
      true division of two integers; it is kept in lowest terms ([Qred]),
      so that Python's [==] on such values is Leibniz equality.  Rounding,
      infinities and NaN are outside the model.
    - A Python [str] is a [string]; an f-string prints an integer with
      stdpp's [pretty].
    - A raised exception is [None] in the option monad ([x ← m; k]).
      The calls into other libraries that the embedding leaves out
      (loading a model, reading the audio file) are taken to have
      returned: [None] is an exception of the embedded lines only.
    - A [dict] is a [gmap], a [set] a [gset]. *)

From Stdlib Require Import QArith Qreduction Qround Lqa.
From stdpp Require Import gmap strings list sorting pretty list_numbers.

Local Open Scope Z_scope.

(** ** Python primitives used by the two modules *)

(** [a < b] and [a <= b] on floats. *)
Definition float_lt (a b : Q) : bool :=
  match (a ?= b)%Q with Lt => true | _ => false end.

Definition float_le (a b : Q) : bool := Qle_bool a b.

(** [min(a, b)]: the builtin keeps its first argument unless the second
    one is strictly smaller. *)
Definition py_min (a b : Q) : Q := if float_lt b a then b else a.

(** [a / b] on integers (true division); [b = 0] raises
    [ZeroDivisionError]. *)
Definition truediv (a b : Z) : option Q :=
  if decide (b = 0) then None else Some (Qred (inject_Z a / inject_Z b)).

(** [range(start, stop, step)]; [step = 0] raises [ValueError]. *)
Definition range (start stop step : Z) : option (list Z) :=
  if decide (step = 0) then None
  else if decide (0 < step) then
    Some ((λ k, start + k * step) <$> seqZ 0 ((stop - start + step - 1) `div` step))
  else
    Some ((λ k, start + k * step) <$> seqZ 0 ((start - stop - step - 1) `div` (- step))).

(** [xs[i:j]] for indices [0 <= i], [0 <= j] (the only slices the code
    takes): the elements at positions [i, ..., min(j, len(xs)) - 1]. *)
Definition slice {A} (xs : list A) (i j : Z) : list A :=
  take (Z.to_nat j - Z.to_nat i)%nat (drop (Z.to_nat i) xs).

(** [len(xs)]. *)
Definition len {A} (xs : list A) : Z := Z.of_nat (length xs).

(** [np.pad(chunk, (0, n))]: [n] zeros appended. *)
Definition np_pad (chunk : list Q) (n : Z) : list Q :=
  chunk ++ replicate (Z.to_nat n) 0%Q.

(** [enumerate(xs)]. *)
Definition enumerate {A} (xs : list A) : list (Z * A) :=
  imap (λ i x, (Z.of_nat i, x)) xs.

(** [int(x)] on a float: truncation toward zero. *)
Definition py_int (x : Q) : Z := if float_lt x 0 then Qceiling x else Qfloor x.

(** [a // b] and [a % b] on floats, as the exact values: the floor of
    the quotient, and the remainder that goes with it.  The float
    operations return these values where they do not round: for the
    divisor 60 of the code and [0 <= a < 2^53], [a - a % 60] is a whole
    number below [2^53] and every step of [float_divmod] is exact.  They
    round elsewhere ([-1e-20 % 60] is [60.0], and [//] rounds above
    [2^53]), so the formatters are stated on that range only. *)
Definition float_floordiv (a b : Q) : Q := inject_Z (Qfloor (a / b)).

Definition float_mod (a b : Q) : Q := (a - b * inject_Z (Qfloor (a / b)))%Q.

(** The format spec [02d]: at least two characters, padded with a zero;
    a minus sign counts as a character. *)
Definition format_02d (n : Z) : string :=
  if decide (0 ≤ n < 10) then "0" +:+ pretty n else pretty n.

(** The outcome of a method that may raise: the value it returns, or the
    message of the exception. *)
Inductive outcome (A : Type) : Type :=
  | Returned (a : A)
  | Raised (msg : string).
Arguments Returned {A} a.
Arguments Raised {A} msg.

(** ** Data *)

(** A speaker segment is the tuple [(start_sec, end_sec, speaker_label)]. *)
Definition SpeakerSegment : Type := Q * Q * string.

Definition seg_start (s : SpeakerSegment) : Q := s.1.1.
Definition seg_end (s : SpeakerSegment) : Q := s.1.2.
Definition seg_label (s : SpeakerSegment) : string := s.2.

(** [transcriber.TranscriptionSegment]. *)
Record TranscriptionSegment := mkTranscriptionSegment {
  ts_start : Q;
  ts_end : Q;
  ts_text : string
}.

(** The dict [{"speaker": .., "start": .., "end": .., "text": ..}] built by
    [_assign_speakers]. *)
Record AlignedRecord := mkAlignedRecord {
  ar_speaker : string;
  ar_start : Q;
  ar_end : Q;
  ar_text : string
}.

(** ** [main.py]: [_assign_speakers] *)

Module main.

(** The inner [for ... in speaker_segments] loop with its [break];
    [speaker] is the value the variable holds when the loop is entered. *)
Fixpoint scan_speaker_segments (trans_start : Q) (speaker : string)
    (speaker_segments : list SpeakerSegment) : string :=
  match speaker_segments with
  | [] => speaker
  | (spk_start, spk_end, spk_label) :: rest =>
      if float_le spk_start trans_start && float_lt trans_start spk_end
      then spk_label
      else scan_speaker_segments trans_start speaker rest
  end.

(** The body of the outer loop: the record appended for one span. *)
Definition assign_one (speaker_segments : list SpeakerSegment)
    (trans_seg : TranscriptionSegment) : AlignedRecord :=
  let trans_start := ts_start trans_seg in
  let speaker := scan_speaker_segments trans_start "Unknown" speaker_segments in
  {| ar_speaker := speaker;
     ar_start := ts_start trans_seg;
     ar_end := ts_end trans_seg;
     ar_text := ts_text trans_seg |}.

(** The outer loop, threading [result]. *)
Fixpoint assign_loop (speaker_segments : list SpeakerSegment)
    (result : list AlignedRecord)
    (transcription_segments : list TranscriptionSegment) : list AlignedRecord :=
  match transcription_segments with
  | [] => result
  | trans_seg :: rest =>
      assign_loop speaker_segments
        (result ++ [assign_one speaker_segments trans_seg]) rest
  end.

Definition _assign_speakers
    (transcription_segments : list TranscriptionSegment)
    (speaker_segments : list SpeakerSegment) : list AlignedRecord :=
  assign_loop speaker_segments [] transcription_segments.

End main.

(** *** Specification-side vocabulary for the aligner *)

(** The half-open containment test [seg.start <= t < seg.end]. *)
Definition contains (seg : SpeakerSegment) (t : Q) : Prop :=
  (seg_start seg <= t)%Q ∧ (t < seg_end seg)%Q.

(** [seg] is the first segment of [segs], in list order, containing [t]. *)
Definition first_containing (segs : list SpeakerSegment) (t : Q)
    (seg : SpeakerSegment) : Prop :=
  ∃ j : nat, segs !! j = Some seg ∧ contains seg t ∧
    ∀ (j' : nat) seg', (j' < j)%nat → segs !! j' = Some seg' → ¬ contains seg' t.

Definition none_containing (segs : list SpeakerSegment) (t : Q) : Prop :=
  ∀ seg, seg ∈ segs → ¬ contains seg t.

(** The assignment rule: [speaker] is the label of the first segment
    containing [t], or ["Unknown"] when no segment contains [t]. *)
Definition assigned (segs : list SpeakerSegment) (t : Q) (speaker : string) : Prop :=
  (∃ seg, first_containing segs t seg ∧ speaker = seg_label seg)
  ∨ (none_containing segs t ∧ speaker = "Unknown").

(** [result] holds one record per span, in the order of the spans, each
    with the fields of its span and a speaker that satisfies [P] at the
    span's start. *)
Definition aligned (P : Q → string → Prop)
    (spans : list TranscriptionSegment) (result : list AlignedRecord) : Prop :=
  length result = length spans ∧
  ∀ (i : nat) t, spans !! i = Some t →
    ∃ r, result !! i = Some r ∧
         ar_start r = ts_start t ∧ ar_end r = ts_end t ∧ ar_text r = ts_text t ∧
         P (ts_start t) (ar_speaker r).

(** Alignment totality as the specification words it: the rule above,
    with the speaker ["Unknown"] if and only if no segment contains the
    span's start. *)
Definition alignment_totality (spans : list TranscriptionSegment)
    (segs : list SpeakerSegment) : Prop :=
  aligned (λ t speaker,
             assigned segs t speaker ∧
             (speaker = "Unknown" ↔ none_containing segs t))
          spans (main._assign_speakers spans segs).

(** Every two neighbours of a list are related by [R]. *)
Definition adjacent {A} (R : A → A → Prop) (l : list A) : Prop :=
  ∀ (i : nat) a b, l !! i = Some a → l !! S i = Some b → R a b.

(** The distinct raw labels in order of first appearance. *)
Fixpoint first_seen (labels : list Z) : list Z :=
  match labels with
  | [] => []
  | x :: rest => x :: filter (λ y, y ≠ x) (first_seen rest)
  end.

(** ** [config.py] *)

Module config.
Definition SAMPLE_RATE : Z := 16000.
Definition CHUNK_DURATION_SEC : Z := 10.
Definition CHANNELS : Z := 1.
Definition TEMP_AUDIO_PATH : string := "/tmp/voice_recording.wav".
End config.

(** ** [transcriber.py]: [Transcriber]

    The speech-to-text model is outside the embedding: [transcribe] and
    [get_duration] take the segments it yields, each with a start, an end
    and a text.  [strip] stands for [str.strip]. *)

Module transcriber.
Section transcriber.

Variable strip : string → string.

(** Lines 57-67: the loop of [transcribe], threading [result]; an empty
    string is falsy. *)
Fixpoint transcribe_loop (result : list TranscriptionSegment)
    (segments : list TranscriptionSegment) : list TranscriptionSegment :=
  match segments with
  | [] => result
  | segment :: rest =>
      let text := strip (ts_text segment) in
      if decide (text = "") then transcribe_loop result rest
      else
        transcribe_loop
          (result ++ [mkTranscriptionSegment (ts_start segment) (ts_end segment) text])
          rest
  end.

Definition transcribe (segments : list TranscriptionSegment)
    : list TranscriptionSegment :=
  transcribe_loop [] segments.

(** Lines 79-83: the loop of [get_duration], threading [last_end]. *)
Fixpoint get_duration_loop (last_end : Q) (segments : list TranscriptionSegment) : Q :=
  match segments with
  | [] => last_end
  | segment :: rest => get_duration_loop (ts_end segment) rest
  end.

Definition get_duration (segments : list TranscriptionSegment) : Q :=
  get_duration_loop 0 segments.

End transcriber.
End transcriber.

(** ** [recorder.py]: [Recorder]

    A method takes the recorder and returns the recorder it leaves behind
    together with its outcome.  The sound device is outside the
    embedding: [start] is told how the device behaves, [_callback] is the
    device delivering a block of mono samples, and the file [stop] writes
    is part of what it returns.  [to_int16] stands for the conversion of
    one sample, [(x * 32767).astype(np.int16)]; stopping and closing a
    stream are taken not to raise. *)

Module recorder.

Record InputStream := mkInputStream {
  samplerate : Z;
  channels : Z
}.

Record Recorder := mkRecorder {
  is_recording : bool;
  _audio_data : list (list Q);
  _stream : option InputStream
}.

(** How the sound device answers [start]: it works, or constructing the
    stream raises, or starting the constructed stream raises. *)
Inductive device : Type :=
  | DeviceOk
  | OpenRaises (msg : string)
  | StartRaises (msg : string).

(** A written wav file: its path, its sample rate and its samples. *)
Record WavFile := mkWavFile {
  wav_path : string;
  wav_rate : Z;
  wav_data : list Z
}.

Section recorder.

Variables SAMPLE_RATE CHANNELS : Z.
Variable TEMP_AUDIO_PATH : string.
Variable to_int16 : Q → Z.

(** [__init__]. *)
Definition init : Recorder :=
  {| is_recording := false; _audio_data := []; _stream := None |}.

(** [_callback]: the block is appended. *)
Definition _callback (indata : list Q) (self : Recorder) : Recorder :=
  {| is_recording := is_recording self;
     _audio_data := _audio_data self ++ [indata];
     _stream := _stream self |}.

(** [start]. *)
Definition start (dev : device) (self : Recorder) : Recorder * outcome unit :=
  if is_recording self then (self, Returned tt)
  else
    let self := {| is_recording := is_recording self;
                   _audio_data := [];
                   _stream := _stream self |} in
    match dev with
    | OpenRaises msg => (self, Raised msg)
    | StartRaises msg =>
        ({| is_recording := is_recording self;
            _audio_data := _audio_data self;
            _stream := Some (mkInputStream SAMPLE_RATE CHANNELS) |}, Raised msg)
    | DeviceOk =>
        ({| is_recording := true;
            _audio_data := _audio_data self;
            _stream := Some (mkInputStream SAMPLE_RATE CHANNELS) |}, Returned tt)
    end.

(** [stop]: the path returned, with the file written there. *)
Definition stop (self : Recorder) : Recorder * outcome WavFile :=
  if negb (is_recording self) || bool_decide (_stream self = None)
  then (self, Raised "録音が開始されていません")
  else
    let self := {| is_recording := false;
                   _audio_data := _audio_data self;
                   _stream := None |} in
    match _audio_data self with
    | [] => (self, Raised "録音データがありません")
    | _ =>
        let audio_array := concat (_audio_data self) in
        let audio_int16 := to_int16 <$> audio_array in
        let output_path := TEMP_AUDIO_PATH in
        (self, Returned (mkWavFile output_path SAMPLE_RATE audio_int16))
    end.

(** [get_duration]; [None] is the [ZeroDivisionError] of the division. *)
Definition get_duration (self : Recorder) : option Q :=
  match _audio_data self with
  | [] => Some 0%Q
  | _ =>
      let total_samples := foldl Z.add 0 (len <$> _audio_data self) in
      truediv total_samples SAMPLE_RATE
  end.

End recorder.
End recorder.

(** ** [main.py]: the rest of [VoiceToMdApp]

    The handlers of the menu bar application, as transitions on the
    fields the class keeps; alerts, notifications and the progress window
    are left out.  [_stop_recording] hands the recording to a background
    thread: the transition returns the file that thread is started on,
    and [process_audio_finished] is the thread's last two assignments
    (lines 152-153 of [_process_audio]). *)

Module VoiceToMdApp.

(** [_format_duration]. *)
Definition _format_duration (seconds : Q) : string :=
  let minutes := py_int (float_floordiv seconds 60) in
  let secs := py_int (float_mod seconds 60) in
  pretty minutes +:+ "分" +:+ format_02d secs +:+ "秒".

(** [_format_timestamp]. *)
Definition _format_timestamp (seconds : Q) : string :=
  let minutes := py_int (float_floordiv seconds 60) in
  let secs := py_int (float_mod seconds 60) in
  format_02d minutes +:+ ":" +:+ format_02d secs.

Record App := mkApp {
  _recorder : recorder.Recorder;
  _is_recording : bool;
  _is_processing : bool;
  title : string
}.

Section handlers.

Variable to_int16 : Q → Z.

Definition Recorder_start : recorder.device → recorder.Recorder → _ :=
  recorder.start config.SAMPLE_RATE config.CHANNELS.

Definition Recorder_stop : recorder.Recorder → _ :=
  recorder.stop config.SAMPLE_RATE config.TEMP_AUDIO_PATH to_int16.

(** [__init__]. *)
Definition init : App :=
  {| _recorder := recorder.init;
     _is_recording := false;
     _is_processing := false;
     title := "🎤 Voice" |}.

(** [_start_recording]. *)
Definition _start_recording (dev : recorder.device) (self : App) : App :=
  match Recorder_start dev (_recorder self) with
  | (r, Returned _) =>
      {| _recorder := r;
         _is_recording := true;
         _is_processing := _is_processing self;
         title := "🔴 REC" |}
  | (r, Raised _) =>
      {| _recorder := r;
         _is_recording := _is_recording self;
         _is_processing := _is_processing self;
         title := title self |}
  end.

(** [_stop_recording], with the file the background thread is started
    on, if any. *)
Definition _stop_recording (self : App) : App * option recorder.WavFile :=
  if _is_processing self then (self, None)
  else
    match Recorder_stop (_recorder self) with
    | (r, Returned audio_path) =>
        ({| _recorder := r;
            _is_recording := false;
            _is_processing := true;
            title := "⏳ ..." |}, Some audio_path)
    | (r, Raised _) =>
        ({| _recorder := r;
            _is_recording := false;
            _is_processing := false;
            title := "🎤 Voice" |}, None)
    end.

(** [toggle_recording]. *)
Definition toggle_recording (dev : recorder.device) (self : App)
    : App * option recorder.WavFile :=
  if _is_processing self then (self, None)
  else if negb (_is_recording self) then (_start_recording dev self, None)
  else _stop_recording self.

(** The end of [_process_audio], on either path. *)
Definition process_audio_finished (self : App) : App :=
  {| _recorder := _recorder self;
     _is_recording := _is_recording self;
     _is_processing := false;
     title := "🎤 Voice" |}.

(** The sound device delivers a block to the recorder's callback. *)
Definition audio_callback (indata : list Q) (self : App) : App :=
  {| _recorder := recorder._callback indata (_recorder self);
     _is_recording := _is_recording self;
     _is_processing := _is_processing self;
     title := title self |}.

(** What the application maintains between two events. *)
Definition consistent (self : App) : Prop :=
  _is_recording self = recorder.is_recording (_recorder self) ∧
  (_is_recording self = true → _is_processing self = false) ∧
  (recorder.is_recording (_recorder self) = true →
   recorder._stream (_recorder self) ≠ None) ∧
  title self = (if _is_processing self then "⏳ ..."
                else if _is_recording self then "🔴 REC" else "🎤 Voice").

End handlers.
End VoiceToMdApp.

(** ** [diarizer.py]: [Diarizer.diarize]

    The two configuration constants are parameters of the development,
    and so are the two opaque capabilities the method calls: the speaker
    embedding model ([self._classifier.encode_batch], followed by
    [squeeze().numpy()]) and the clustering algorithm
    ([MeanShift(bandwidth=None).fit_predict]), whose [None] stands for a
    raised exception.  [audio] is the sample buffer [librosa.load]
    returns, resampled to [SAMPLE_RATE].

    The embedding is of lines 42-113: what the method computes once
    [_ensure_model_loaded] (line 38) and [librosa.load] (line 41) have
    returned and when the embedding model answers for every chunk.  Those
    calls can raise (a model that does not load, a file that cannot be
    read, a sample rate that is not positive), and nothing is said here of
    such runs.  A result [None] is an exception of the embedded lines
    themselves: the division of line 42 or [range] at line 49. *)

Section diarizer.

Variables SAMPLE_RATE CHUNK_DURATION_SEC : Z.
Variable embedding : Type.
Variable encode_batch : list Q → embedding.
Variable fit_predict : list embedding → option (list Z).

(** Line 42: [duration = len(audio) / sr]. *)
Definition load_duration (audio : list Q) : option Q :=
  truediv (len audio) SAMPLE_RATE.

(** Line 45. *)
Definition chunk_length : Z := SAMPLE_RATE * CHUNK_DURATION_SEC.

(** Lines 50-60: one iteration of the chunking loop on the state
    [(chunks, chunk_times)]. *)
Definition chunk_step (audio : list Q) (duration : Q) (i : Z)
    (st : list (list Q) * list (Q * Q)) : option (list (list Q) * list (Q * Q)) :=
  let '(chunks, chunk_times) := st in
  let chunk := slice audio i (i + chunk_length) in
  if decide (len chunk < SAMPLE_RATE * 2) then Some (chunks, chunk_times)
  else
    let chunk :=
      if decide (len chunk < chunk_length)
      then np_pad chunk (chunk_length - len chunk) else chunk in
    let chunks := chunks ++ [chunk] in
    start_sec ← truediv i SAMPLE_RATE;
    e ← truediv (i + chunk_length) SAMPLE_RATE;
    let end_sec := py_min e duration in
    Some (chunks, chunk_times ++ [(start_sec, end_sec)]).

Fixpoint chunk_loop (audio : list Q) (duration : Q) (indices : list Z)
    (st : list (list Q) * list (Q * Q)) : option (list (list Q) * list (Q * Q)) :=
  match indices with
  | [] => Some st
  | i :: rest => st' ← chunk_step audio duration i st; chunk_loop audio duration rest st'
  end.

(** Lines 45-60: the chunker, returning [(chunks, chunk_times)]. *)
Definition chunker (audio : list Q) (duration : Q)
    : option (list (list Q) * list (Q * Q)) :=
  indices ← range 0 (len audio) chunk_length;
  chunk_loop audio duration indices ([], []).

(** Lines 77-86: the clusterer.  The boolean is a ghost flag: it records
    whether [fit_predict] was called. *)
Definition cluster (embeddings : list embedding) : list Z * bool :=
  if decide (len embeddings < 2) then ([0], false)
  else
    match fit_predict embeddings with
    | Some labels => (labels, true)
    | None => (replicate (Z.to_nat (len embeddings)) 0, true)
    end.

(** Line 89: [sorted(set(labels))]. *)
Definition unique_labels (labels : list Z) : list Z :=
  merge_sort Z.le (elements (list_to_set labels : gset Z)).

(** Line 90: the dict comprehension; a later pair overwrites an earlier
    one with the same key. *)
Definition label_map (labels : list Z) : gmap Z string :=
  foldl (λ (m : gmap Z string) '(i, label), <[label := "Speaker " +:+ pretty (i + 1)]> m)
        ∅ (enumerate (unique_labels labels)).

(** Lines 99-107: one iteration of the merge loop.  [current] holds
    [(current_start, current_end, current_speaker)]; the three variables
    are [None] together (before the first iteration) and set together. *)
Definition merge_step (label_map : gmap Z string)
    (st : list SpeakerSegment * option SpeakerSegment) (item : (Q * Q) * Z)
    : option (list SpeakerSegment * option SpeakerSegment) :=
  let '(segments, current) := st in
  let '((start, end_), label) := item in
  speaker ← label_map !! label;
  match current with
  | Some (current_start, current_end, current_speaker) =>
      if decide (speaker = current_speaker)
      then Some (segments, Some (current_start, end_, current_speaker))
      else Some (segments ++ [(current_start, current_end, current_speaker)],
                 Some (start, end_, speaker))
  | None => Some (segments, Some (start, end_, speaker))
  end.

Fixpoint merge_loop (label_map : gmap Z string)
    (items : list ((Q * Q) * Z))
    (st : list SpeakerSegment * option SpeakerSegment)
    : option (list SpeakerSegment * option SpeakerSegment) :=
  match items with
  | [] => Some st
  | item :: rest => st' ← merge_step label_map st item; merge_loop label_map rest st'
  end.

(** Lines 89-113: the segment merger. *)
Definition merger (chunk_times : list (Q * Q)) (labels : list Z)
    : option (list SpeakerSegment) :=
  let label_map := label_map labels in
  '(segments, current) ← merge_loop label_map (zip chunk_times labels) ([], None);
  match current with
  | Some seg => Some (segments ++ [seg])
  | None => Some segments
  end.

(** [diarize] from line 42 on, returning the segments together with the
    ghost flag of [cluster] ([false] on the path that never reaches the
    clusterer).  [audio] is what the load of line 41 returned and
    [encode_batch] returns for every chunk; [None] is an exception raised
    by lines 42-113, not by the calls before them. *)
Definition diarize_traced (audio : list Q) : option (list SpeakerSegment * bool) :=
  duration ← load_duration audio;
  '(chunks, chunk_times) ← chunker audio duration;
  match chunks with
  | [] => Some ([(0%Q, duration, "Speaker 1")], false)
  | _ =>
      let embeddings := encode_batch <$> chunks in
      let '(labels, invoked) := cluster embeddings in
      segments ← merger chunk_times labels;
      Some (segments, invoked)
  end.

Definition diarize (audio : list Q) : option (list SpeakerSegment) :=
  fst <$> diarize_traced audio.

(** Lines 115-118: [get_speaker_count], the size of the set of labels. *)
Definition get_speaker_count (segments : list SpeakerSegment) : Z :=
  Z.of_nat (size (list_to_set (seg_label <$> segments) : gset string)).

(** [main.py], lines 95-118 of [_process_audio]: the duration, the
    speaker segments and their count, the transcription, and the aligned
    records handed to the Markdown writer.  [audio] is what the load of
    line 94 returned: the embedding starts after [progress_window.show]
    (line 91) and [librosa.load] (line 94), which can raise, and leaves
    out the status updates of the progress window.  The two collaborators
    are arguments, [None] standing for a raised exception: the method
    catches it and substitutes a default.  [None] as the result is an
    exception of the embedded lines themselves (the division of line 95),
    which the outer [except] catches. *)
Definition _process_audio
    (diarizer_diarize : list Q → option (list SpeakerSegment))
    (transcriber_transcribe : list Q → option (list TranscriptionSegment))
    (audio : list Q) : option (string * Z * list AlignedRecord) :=
  duration_sec ← truediv (len audio) SAMPLE_RATE;
  let duration_str := VoiceToMdApp._format_duration duration_sec in
  let '(speaker_segments, speaker_count) :=
    match diarizer_diarize audio with
    | Some speaker_segments => (speaker_segments, get_speaker_count speaker_segments)
    | None => ([(0%Q, duration_sec, "Speaker 1")], 1)
    end in
  let transcription_segments :=
    match transcriber_transcribe audio with
    | Some transcription_segments => transcription_segments
    | None => []
    end in
  let merged_segments := main._assign_speakers transcription_segments speaker_segments in
  Some (duration_str, speaker_count, merged_segments).

(** *** Specification-side vocabulary for the merger *)

(** The numbering by first appearance, as the data model words it: the
    [k]-th distinct raw label in order of first appearance (counting from
    0) is displayed as ["Speaker {k + 1}"]. *)
Definition first_seen_numbering (labels : list Z) : Prop :=
  ∀ (k : nat) l, first_seen labels !! k = Some l →
    label_map labels !! l = Some ("Speaker " +:+ pretty (Z.of_nat k + 1)).

(** [seg] is what the merge loop makes of the run [run] of consecutive
    chunks: it starts with the first chunk of the run, ends with the last
    one, and carries the display label of every chunk of the run. *)
Definition run_segment (lm : gmap Z string) (run : list ((Q * Q) * Z))
    (seg : SpeakerSegment) : Prop :=
  ∃ first_item last_item,
    head run = Some first_item ∧ last run = Some last_item ∧
    seg_start seg = first_item.1.1 ∧ seg_end seg = last_item.1.2 ∧
    Forall (λ x, lm !! x.2 = Some (seg_label seg)) run.

(** *** Specification-side vocabulary for the chunker *)

(** The instant, in seconds, of sample index [i]. *)
Definition sec (i : Z) : Q := Qred (inject_Z i / inject_Z SAMPLE_RATE).

(** The raw window the loop reads at index [i]. *)
Definition window (audio : list Q) (i : Z) : list Q :=
  slice audio i (i + chunk_length).

(** A window survives when it holds at least two seconds of samples. *)
Definition viable (audio : list Q) (i : Z) : Prop :=
  SAMPLE_RATE * 2 ≤ len (window audio i).

#[global] Instance viable_dec audio i : Decision (viable audio i).
Proof. unfold viable. apply _. Defined.

(** What the loop appends to [chunks] and to [chunk_times] for a
    surviving window. *)
Definition padded (audio : list Q) (i : Z) : list Q :=
  if decide (len (window audio i) < chunk_length)
  then np_pad (window audio i) (chunk_length - len (window audio i))
  else window audio i.

Definition time_range (duration : Q) (i : Z) : Q * Q :=
  (sec i, py_min (sec (i + chunk_length)) duration).

(** * Properties *)

(** ** The primitives *)

Lemma float_lt_spec a b : float_lt a b = true ↔ (a < b)%Q.
Proof.
  unfold float_lt. rewrite Qlt_alt. destruct (a ?= b)%Q; split; congruence.
Qed.

Lemma float_le_spec a b : float_le a b = true ↔ (a <= b)%Q.
Proof. apply Qle_bool_iff. Qed.

Lemma truediv_Some a b :
  b ≠ 0 → truediv a b = Some (Qred (inject_Z a / inject_Z b)).
Proof. intros Hb. unfold truediv. by destruct (decide (b = 0)). Qed.

Lemma truediv_is_Some a b q : truediv a b = Some q → b ≠ 0.
Proof. unfold truediv. by destruct (decide (b = 0)). Qed.

Lemma len_nonneg {A} (xs : list A) : 0 ≤ len xs.
Proof. unfold len. lia. Qed.

Lemma len_app {A} (xs ys : list A) : len (xs ++ ys) = len xs + len ys.
Proof. unfold len. rewrite length_app. lia. Qed.

Lemma len_slice {A} (xs : list A) i j :
  0 ≤ i → i ≤ j → len (slice xs i j) = Z.max 0 (Z.min (j - i) (len xs - i)).
Proof.
  intros Hi Hj. unfold len, slice. rewrite length_take, length_drop. lia.
Qed.

Lemma len_np_pad chunk n : 0 ≤ n → len (np_pad chunk n) = len chunk + n.
Proof.
  intros Hn. unfold np_pad. rewrite len_app. unfold len at 2.
  rewrite length_replicate. lia.
Qed.

(** The shape of [range(0, n, step)] for a positive step: the multiples
    [0, step, ..., (m - 1) * step] below [n]. *)
Lemma range_pos n step :
  0 < step → 0 ≤ n →
  ∃ m, 0 ≤ m ∧ (m = 0 ↔ n = 0) ∧ (m - 1) * step < n ∧ n ≤ m * step ∧
       range 0 n step = Some ((λ k, k * step) <$> seqZ 0 m).
Proof.
  intros Hstep Hn. exists ((n + step - 1) `div` step).
  pose proof (Z.div_mod (n + step - 1) step ltac:(lia)) as Hdm.
  pose proof (Z.mod_pos_bound (n + step - 1) step Hstep) as Hmod.
  assert (Hm0 : 0 ≤ (n + step - 1) `div` step) by (apply Z.div_pos; lia).
  split; [done|]. split; [|split; [nia|split; [nia|]]].
  - split; [nia|]. intros ->. apply Z.div_small. lia.
  - unfold range. destruct (decide (step = 0)); [lia|].
    destruct (decide (0 < step)); [|lia].
    f_equal. rewrite Z.sub_0_r. apply list_fmap_ext. intros _ k _. lia.
Qed.

Lemma range_neg n step : step < 0 → 0 ≤ n → range 0 n step = Some [].
Proof.
  intros Hstep Hn. unfold range.
  destruct (decide (step = 0)); [lia|]. destruct (decide (0 < step)); [lia|].
  rewrite seqZ_nil; [done|].
  destruct (decide (0 ≤ 0 - n - step - 1)).
  - rewrite Z.div_small; lia.
  - apply Z.lt_le_incl, Z.div_lt_upper_bound; lia.
Qed.

Lemma range_is_Some a n step l : range a n step = Some l → step ≠ 0.
Proof. unfold range. by destruct (decide (step = 0)). Qed.

(** ** Seconds and sample indices *)

Lemma sec_0 : SAMPLE_RATE ≠ 0 → sec 0 = 0%Q.
Proof.
  intros _. unfold sec. change 0%Q with (Qred 0). apply Qred_complete.
  unfold Qdiv. apply Qmult_0_l.
Qed.

Lemma inject_Z_lt a b : a < b → (inject_Z a < inject_Z b)%Q.
Proof. by rewrite <- Zlt_Qlt. Qed.

Lemma sec_lt a b : 0 < SAMPLE_RATE → a < b → (sec a < sec b)%Q.
Proof.
  intros Hsr Hab. unfold sec. rewrite !Qred_correct. unfold Qdiv.
  apply Qmult_lt_compat_r.
  - apply Qinv_lt_0_compat. by apply (inject_Z_lt 0).
  - by apply inject_Z_lt.
Qed.

Lemma sec_le a b : 0 < SAMPLE_RATE → a ≤ b → (sec a <= sec b)%Q.
Proof.
  intros Hsr Hab. destruct (decide (a = b)) as [->|Hne].
  - apply Qle_refl.
  - apply Qlt_le_weak, sec_lt; lia.
Qed.

Lemma sec_lt_inv a b : 0 < SAMPLE_RATE → (sec a < sec b)%Q → a < b.
Proof.
  intros Hsr Hlt. destruct (decide (a < b)) as [|Hge]; [done|].
  exfalso. apply (Qlt_not_le _ _ Hlt), sec_le; lia.
Qed.

(** Clamping commutes with the conversion to seconds. *)
Lemma py_min_sec a b :
  0 < SAMPLE_RATE → py_min (sec a) (sec b) = sec (Z.min a b).
Proof.
  intros Hsr. unfold py_min. destruct (float_lt (sec b) (sec a)) eqn:Hlt.
  - apply float_lt_spec, sec_lt_inv in Hlt; [|done]. f_equal. lia.
  - destruct (decide (b < a)) as [Hba|Hab].
    + apply (sec_lt _ _ Hsr), float_lt_spec in Hba. congruence.
    + f_equal. lia.
Qed.

Lemma sec_gap a b c :
  0 < SAMPLE_RATE → b - a < c * SAMPLE_RATE → (sec b - sec a < inject_Z c)%Q.
Proof.
  intros Hsr Hlt. unfold sec. rewrite !Qred_correct.
  assert (Hpos : (0 < inject_Z SAMPLE_RATE)%Q).
  { by apply (inject_Z_lt 0). }
  setoid_replace (inject_Z b / inject_Z SAMPLE_RATE - inject_Z a / inject_Z SAMPLE_RATE)%Q
    with (inject_Z (b - a) / inject_Z SAMPLE_RATE)%Q using relation Qeq.
  - apply Qlt_shift_div_r; [done|]. rewrite <- inject_Z_mult. by apply inject_Z_lt.
  - unfold Z.sub. rewrite inject_Z_plus, inject_Z_opp. field.
    intros H0. rewrite H0 in Hpos. by apply Qlt_irrefl in Hpos.
Qed.

Lemma load_duration_sec audio duration :
  load_duration audio = Some duration →
  SAMPLE_RATE ≠ 0 ∧ duration = sec (len audio).
Proof.
  unfold load_duration, truediv. destruct (decide (SAMPLE_RATE = 0)); [done|].
  intros [= <-]. done.
Qed.

(** ** The chunker *)

Lemma chunk_step_spec audio duration i chunks chunk_times :
  SAMPLE_RATE ≠ 0 →
  chunk_step audio duration i (chunks, chunk_times)
  = Some (if decide (viable audio i)
          then (chunks ++ [padded audio i], chunk_times ++ [time_range duration i])
          else (chunks, chunk_times)).
Proof.
  intros Hsr. unfold chunk_step, viable, padded, time_range, sec.
  fold (window audio i).
  destruct (decide (len (window audio i) < SAMPLE_RATE * 2)) as [Hshort|Hlong].
  - destruct (decide (SAMPLE_RATE * 2 ≤ len (window audio i))); [lia|done].
  - destruct (decide (SAMPLE_RATE * 2 ≤ len (window audio i))); [|lia].
    by rewrite !truediv_Some.
Qed.

Lemma chunk_loop_spec audio duration indices chunks chunk_times :
  SAMPLE_RATE ≠ 0 →
  chunk_loop audio duration indices (chunks, chunk_times)
  = Some (chunks ++ (padded audio <$> filter (viable audio) indices),
          chunk_times ++ (time_range duration <$> filter (viable audio) indices)).
Proof.
  intros Hsr. revert chunks chunk_times.
  induction indices as [|i indices IH]; intros chunks chunk_times.
  - simpl. by rewrite !app_nil_r.
  - cbn [chunk_loop]. rewrite chunk_step_spec by done.
    cbn [mbind option_bind]. rewrite filter_cons.
    destruct (decide (viable audio i)); rewrite IH; [|done].
    by rewrite !fmap_cons, <- !app_assoc.
Qed.

(** The chunker keeps exactly the viable windows of the walk, in order. *)
Lemma chunker_spec audio duration chunks chunk_times :
  SAMPLE_RATE ≠ 0 →
  chunker audio duration = Some (chunks, chunk_times) →
  ∃ indices,
    range 0 (len audio) chunk_length = Some indices ∧
    chunks = padded audio <$> filter (viable audio) indices ∧
    chunk_times = time_range duration <$> filter (viable audio) indices.
Proof.
  intros Hsr. unfold chunker.
  destruct (range 0 (len audio) chunk_length) as [indices|]; [|done]. simpl.
  rewrite chunk_loop_spec by done. intros [= <- <-]. by exists indices.
Qed.

(** The chunker returns whenever neither configuration constant is zero. *)
Lemma chunker_total audio duration :
  SAMPLE_RATE ≠ 0 → CHUNK_DURATION_SEC ≠ 0 →
  ∃ chunks chunk_times, chunker audio duration = Some (chunks, chunk_times).
Proof.
  intros Hsr Hcd. unfold chunker, range.
  destruct (decide (chunk_length = 0)) as [H0|_]; [unfold chunk_length in H0; nia|].
  destruct (decide (0 < chunk_length)); simpl; rewrite chunk_loop_spec by done; eauto.
Qed.

Lemma len_window audio i :
  0 ≤ i → 0 < chunk_length →
  len (window audio i) = Z.max 0 (Z.min chunk_length (len audio - i)).
Proof.
  intros Hi Hcl. unfold window. rewrite len_slice by lia. f_equal. f_equal. lia.
Qed.

Lemma len_padded audio i :
  0 ≤ i → 0 < chunk_length → len (padded audio i) = chunk_length.
Proof.
  intros Hi Hcl. unfold padded.
  pose proof (len_window audio i Hi Hcl) as Hw.
  destruct (decide (len (window audio i) < chunk_length)).
  - rewrite len_np_pad by lia. lia.
  - lia.
Qed.

Lemma filter_all_but_last {A} (P : A → Prop) `{∀ x, Decision (P x)} l x :
  Forall P l →
  filter P (l ++ [x]) = if decide (P x) then l ++ [x] else l.
Proof.
  intros Hall. rewrite filter_app, filter_cons, filter_nil.
  assert (Hl : filter P l = l).
  { induction Hall as [|y l Hy _ IH]; [done|].
    rewrite filter_cons. destruct (decide (P y)); [by rewrite IH|done]. }
  rewrite Hl. destruct (decide (P x)); [done|by rewrite app_nil_r].
Qed.

(** When at least one window survives, the kept windows are the first
    [M] windows of the walk: all [m] of them, or all but a last one that
    is shorter than two seconds. *)
Lemma kept_shape audio duration chunks chunk_times :
  0 < SAMPLE_RATE →
  chunker audio duration = Some (chunks, chunk_times) →
  chunk_times ≠ [] →
  ∃ m M,
    0 < chunk_length ∧ SAMPLE_RATE * 2 ≤ chunk_length ∧
    (m - 1) * chunk_length < len audio ∧ len audio ≤ m * chunk_length ∧
    0 < M ∧
    (M = m ∨ (M = m - 1 ∧ len audio - (m - 1) * chunk_length < SAMPLE_RATE * 2)) ∧
    range 0 (len audio) chunk_length = Some ((λ k, k * chunk_length) <$> seqZ 0 m) ∧
    filter (viable audio) ((λ k, k * chunk_length) <$> seqZ 0 m)
      = (λ k, k * chunk_length) <$> seqZ 0 M ∧
    chunks = padded audio <$> ((λ k, k * chunk_length) <$> seqZ 0 M) ∧
    chunk_times = time_range duration <$> ((λ k, k * chunk_length) <$> seqZ 0 M).
Proof.
  intros Hsr Hchunker Hne.
  destruct (chunker_spec _ _ _ _ ltac:(lia) Hchunker) as (indices & Hrange & Hchunks & Htimes).
  pose proof (range_is_Some _ _ _ _ Hrange) as Hcl0.
  pose proof (len_nonneg audio) as Hn.
  destruct (decide (chunk_length < 0)) as [Hneg|Hpos].
  { rewrite range_neg in Hrange by done. injection Hrange as <-.
    by rewrite filter_nil in Htimes. }
  assert (Hcl : 0 < chunk_length) by lia.
  destruct (range_pos (len audio) chunk_length Hcl Hn) as (m & Hm0 & Hmn & Hlo & Hhi & Hrange').
  rewrite Hrange in Hrange'. injection Hrange' as ->.
  assert (Hm : 0 < m).
  { destruct (decide (m = 0)) as [->|]; [|lia].
    rewrite seqZ_nil in Htimes by lia. by rewrite fmap_nil, filter_nil in Htimes. }
  (* some window survives, so a full window is at least two seconds long *)
  assert (Hlong : SAMPLE_RATE * 2 ≤ chunk_length).
  { destruct (filter (viable audio) ((λ k, k * chunk_length) <$> seqZ 0 m))
      as [|i kept] eqn:Hkept; [by subst chunk_times|].
    assert (Hi : i ∈ filter (viable audio) ((λ k, k * chunk_length) <$> seqZ 0 m)).
    { rewrite Hkept. apply list_elem_of_here. }
    apply list_elem_of_filter in Hi as [Hv Hi].
    apply list_elem_of_fmap in Hi as (k & -> & Hk). apply elem_of_seqZ in Hk.
    unfold viable in Hv. rewrite len_window in Hv by nia. lia. }
  (* split off the last window: all the others are full, hence viable *)
  assert (Hsplit : (λ k, k * chunk_length) <$> seqZ 0 m
                   = ((λ k, k * chunk_length) <$> seqZ 0 (m - 1)) ++ [(m - 1) * chunk_length]).
  { replace m with ((m - 1) + 1) at 1 by lia.
    rewrite seqZ_app by lia. rewrite fmap_app. by f_equal. }
  assert (Hinit : Forall (viable audio) ((λ k, k * chunk_length) <$> seqZ 0 (m - 1))).
  { apply Forall_forall. intros i Hi.
    apply list_elem_of_fmap in Hi as (k & -> & Hk). apply elem_of_seqZ in Hk.
    unfold viable. rewrite len_window by nia. nia. }
  assert (Hfilter :
    filter (viable audio) ((λ k, k * chunk_length) <$> seqZ 0 m)
    = if decide (viable audio ((m - 1) * chunk_length))
      then (λ k, k * chunk_length) <$> seqZ 0 m
      else (λ k, k * chunk_length) <$> seqZ 0 (m - 1)).
  { rewrite Hsplit at 1. rewrite (filter_all_but_last _ _ _ Hinit).
    destruct (decide (viable audio ((m - 1) * chunk_length))); [by rewrite Hsplit|done]. }
  destruct (decide (viable audio ((m - 1) * chunk_length))) as [Hv|Hnv].
  - exists m, m. rewrite Hfilter in Hchunks, Htimes.
    split_and!; try done; lia.
  - exists m, (m - 1). rewrite Hfilter in Hchunks, Htimes.
    assert (Hgap : len audio - (m - 1) * chunk_length < SAMPLE_RATE * 2).
    { unfold viable in Hnv. rewrite len_window in Hnv by nia. lia. }
    assert (0 < m - 1).
    { destruct (decide (m - 1 = 0)) as [Hm1|]; [|lia].
      rewrite Hm1, seqZ_nil in Htimes by lia. by subst chunk_times. }
    split_and!; try done; lia.
Qed.

Lemma range_elem n indices i :
  0 ≤ n → range 0 n chunk_length = Some indices → i ∈ indices →
  0 < chunk_length ∧ 0 ≤ i < n.
Proof.
  intros Hn Hrange Hi.
  pose proof (range_is_Some _ _ _ _ Hrange) as Hcl0.
  destruct (decide (chunk_length < 0)) as [Hneg|Hpos].
  { rewrite range_neg in Hrange by done. injection Hrange as <-.
    by apply elem_of_nil in Hi. }
  assert (Hcl : 0 < chunk_length) by lia.
  destruct (range_pos n chunk_length Hcl Hn) as (m & Hm0 & Hmn & Hlo & Hhi & Hrange').
  rewrite Hrange in Hrange'. injection Hrange' as ->.
  apply list_elem_of_fmap in Hi as (k & -> & Hk). apply elem_of_seqZ in Hk.
  split; [done|]. nia.
Qed.

Lemma lookup_walk {B} (g : Z → B) M (k : nat) x :
  (g <$> ((λ j, j * chunk_length) <$> seqZ 0 M)) !! k = Some x
  ↔ Z.of_nat k < M ∧ x = g (Z.of_nat k * chunk_length).
Proof.
  rewrite !list_lookup_fmap. split.
  - destruct (seqZ 0 M !! k) as [j|] eqn:E; simpl; [|done].
    apply lookup_seqZ in E as [-> ?]. intros [= <-]. by rewrite Z.add_0_l.
  - intros [Hk ->]. rewrite lookup_seqZ_lt by done. simpl. by rewrite Z.add_0_l.
Qed.

Lemma length_walk {B} (g : Z → B) M :
  length (g <$> ((λ j, j * chunk_length) <$> seqZ 0 M)) = Z.to_nat M.
Proof. by rewrite !length_fmap, length_seqZ. Qed.

(** The end of a kept window's time range is the instant of the last raw
    sample it holds. *)
Lemma time_range_window audio i :
  0 < SAMPLE_RATE → 0 < chunk_length → 0 ≤ i < len audio →
  time_range (sec (len audio)) i = (sec i, sec (i + len (window audio i))).
Proof.
  intros Hsr Hcl Hi. unfold time_range. rewrite py_min_sec by done.
  rewrite len_window by lia. do 2 f_equal. lia.
Qed.

(** C7.  Every chunk the chunker keeps is the raw window followed by
    zeros up to exactly [SAMPLE_RATE * CHUNK_DURATION_SEC] samples; its
    recorded time range runs from the window's first sample to the
    window's last raw sample, whatever the padding, the end being the
    clamped [min((i + chunk_length) / SAMPLE_RATE, duration)]; and a
    window of the walk whose start is not the start of a kept chunk holds
    fewer than [2 * SAMPLE_RATE] raw samples. *)
Theorem chunker_length_invariant audio duration chunks chunk_times :
  0 < SAMPLE_RATE →
  load_duration audio = Some duration →
  chunker audio duration = Some (chunks, chunk_times) →
  ∃ indices,
    range 0 (len audio) chunk_length = Some indices ∧
    length chunks = length (filter (viable audio) indices) ∧
    length chunk_times = length chunks ∧
    (∀ (k : nat) i, filter (viable audio) indices !! k = Some i →
       ∃ chunk start_sec end_sec,
         chunks !! k = Some chunk ∧
         chunk_times !! k = Some (start_sec, end_sec) ∧
         len chunk = SAMPLE_RATE * CHUNK_DURATION_SEC ∧
         chunk = window audio i
                   ++ replicate (Z.to_nat (chunk_length - len (window audio i))) 0%Q ∧
         start_sec = sec i ∧
         end_sec = py_min (sec (i + chunk_length)) duration ∧
         end_sec = sec (i + len (window audio i)) ∧
         (end_sec <= duration)%Q) ∧
    (∀ i, i ∈ indices → (∀ e, (sec i, e) ∉ chunk_times) →
       len (window audio i) < 2 * SAMPLE_RATE).
Proof.
  intros Hsr Hdur Hchunker.
  apply load_duration_sec in Hdur as [_ ->].
  destruct (chunker_spec _ _ _ _ ltac:(lia) Hchunker) as (indices & Hrange & -> & ->).
  pose proof (len_nonneg audio) as Hn.
  exists indices. split; [done|]. split; [by rewrite length_fmap|].
  split; [by rewrite !length_fmap|]. split.
  - intros k i Hk.
    assert (Hi : i ∈ indices).
    { eapply list_elem_of_filter, list_elem_of_lookup_2, Hk. }
    destruct (range_elem _ _ _ Hn Hrange Hi) as [Hcl Hbound].
    exists (padded audio i), (sec i), (sec (i + len (window audio i))).
    rewrite !list_lookup_fmap, Hk. simpl.
    split; [done|]. split; [by rewrite time_range_window|].
    split; [by apply len_padded; lia|]. split.
    { unfold padded, np_pad.
      destruct (decide (len (window audio i) < chunk_length)) as [|Hge]; [done|].
      replace (Z.to_nat (chunk_length - len (window audio i))) with 0%nat by lia.
      by rewrite app_nil_r. }
    split; [done|]. split.
    { pose proof (time_range_window audio i Hsr Hcl Hbound) as Htr.
      unfold time_range in Htr. by injection Htr. }
    split; [done|]. apply sec_le; [done|]. rewrite len_window by lia. lia.
  - intros i Hi Hnot.
    destruct (decide (viable audio i)) as [Hv|Hnv]; [|unfold viable in Hnv; lia].
    exfalso. apply (Hnot (time_range (sec (len audio)) i).2).
    apply list_elem_of_fmap. exists i. split; [done|].
    by apply list_elem_of_filter.
Qed.

(** Neighbouring kept chunks: the earlier one ends where the later one
    starts. *)
Lemma chunk_times_gapless audio duration chunks chunk_times :
  0 < SAMPLE_RATE →
  load_duration audio = Some duration →
  chunker audio duration = Some (chunks, chunk_times) →
  adjacent (λ a b, (a.1 <= b.1)%Q ∧ a.2 = b.1) chunk_times.
Proof.
  intros Hsr Hdur Hchunker.
  destruct (decide (chunk_times = [])) as [->|Hne]; [by intros k a b Ha|].
  apply load_duration_sec in Hdur as [_ ->].
  destruct (kept_shape _ _ _ _ Hsr Hchunker Hne)
    as (m & M & Hcl & Hlong & Hlo & Hhi & HM & HMm & Hrange & _ & -> & ->).
  intros k a b Ha Hb.
  apply lookup_walk in Ha as [Hk ->]. apply lookup_walk in Hb as [HSk ->].
  unfold time_range. simpl. split.
  - apply sec_le; [done|]. nia.
  - rewrite py_min_sec by done. f_equal. nia.
Qed.

(** The first kept chunk starts at 0. *)
Lemma chunk_times_head audio duration chunks chunk_times :
  0 < SAMPLE_RATE →
  chunker audio duration = Some (chunks, chunk_times) →
  chunk_times ≠ [] →
  ∃ e, chunk_times !! 0%nat = Some (0%Q, e).
Proof.
  intros Hsr Hchunker Hne.
  destruct (kept_shape _ _ _ _ Hsr Hchunker Hne)
    as (m & M & Hcl & Hlong & Hlo & Hhi & HM & HMm & Hrange & _ & -> & ->).
  exists (py_min (sec (0 + chunk_length)) duration).
  rewrite <- (sec_0 ltac:(lia)). apply lookup_walk. split; [lia|done].
Qed.

(** C8.  With at least one kept chunk, the recorded time ranges have
    non-decreasing starts and no gap between neighbours, the first starts
    at 0, and the last ends at [duration], unless the final window of the
    walk was discarded: then it ends where that window starts, less than
    two seconds before [duration]. *)
Theorem chunker_coverage audio duration chunks chunk_times :
  0 < SAMPLE_RATE →
  load_duration audio = Some duration →
  chunker audio duration = Some (chunks, chunk_times) →
  chunk_times ≠ [] →
  adjacent (λ a b, (a.1 <= b.1)%Q ∧ a.2 = b.1) chunk_times ∧
  (∃ e, chunk_times !! 0%nat = Some (0%Q, e)) ∧
  (∃ s e, last chunk_times = Some (s, e) ∧
     (e = duration ∨
      ∃ indices i,
        range 0 (len audio) chunk_length = Some indices ∧
        last indices = Some i ∧
        len (window audio i) < 2 * SAMPLE_RATE ∧
        e = sec i ∧ duration = sec (i + len (window audio i)) ∧
        (e < duration)%Q ∧ (duration - e < 2)%Q)).
Proof.
  intros Hsr Hdur Hchunker Hne.
  split; [by eapply chunk_times_gapless|].
  split; [by eapply chunk_times_head|].
  apply load_duration_sec in Hdur as [_ ->].
  destruct (kept_shape _ _ _ _ Hsr Hchunker Hne)
    as (m & M & Hcl & Hlong & Hlo & Hhi & HM & HMm & Hrange & _ & -> & ->).
  exists (sec ((M - 1) * chunk_length)),
         (py_min (sec ((M - 1) * chunk_length + chunk_length)) (sec (len audio))).
  split.
  { rewrite last_lookup, length_walk. apply lookup_walk.
    split; [lia|]. by replace (Z.of_nat (pred (Z.to_nat M))) with (M - 1) by lia. }
  rewrite py_min_sec by done.
  destruct HMm as [->|[-> Hgap]].
  - left. f_equal. lia.
  - right.
    exists ((λ k, k * chunk_length) <$> seqZ 0 m), ((m - 1) * chunk_length).
    assert (Hw : len (window audio ((m - 1) * chunk_length))
                 = len audio - (m - 1) * chunk_length).
    { rewrite len_window by nia. lia. }
    split; [done|]. split.
    { rewrite last_lookup, !length_fmap, length_seqZ, !list_lookup_fmap.
      rewrite lookup_seqZ_lt by lia. simpl. do 2 f_equal. lia. }
    split; [lia|]. split; [f_equal; lia|]. split; [f_equal; lia|].
    replace (Z.min ((m - 1 - 1) * chunk_length + chunk_length) (len audio))
      with ((m - 1) * chunk_length) by lia.
    split; [by apply sec_lt|]. apply (sec_gap _ _ 2); [done|lia].
Qed.

(** ** The label map *)

Lemma unique_labels_elem labels x : x ∈ unique_labels labels ↔ x ∈ labels.
Proof.
  unfold unique_labels.
  by rewrite merge_sort_Permutation, elem_of_elements, elem_of_list_to_set.
Qed.

Lemma unique_labels_NoDup labels : NoDup (unique_labels labels).
Proof.
  unfold unique_labels. rewrite merge_sort_Permutation. apply NoDup_elements.
Qed.

Lemma StronglySorted_le_lt (l : list Z) :
  StronglySorted Z.le l → NoDup l → StronglySorted Z.lt l.
Proof.
  induction 1 as [|x l Hl IH Hx]; intros Hnd; [constructor|].
  apply NoDup_cons in Hnd as [Hnotin Hnd]. constructor; [by apply IH|].
  rewrite Forall_forall in Hx |- *. intros y Hy.
  specialize (Hx y Hy). assert (x ≠ y) by (by intros ->). lia.
Qed.

Lemma unique_labels_sorted labels : StronglySorted Z.lt (unique_labels labels).
Proof.
  apply StronglySorted_le_lt; [|apply unique_labels_NoDup].
  unfold unique_labels. apply StronglySorted_merge_sort; apply _.
Qed.

Lemma unique_labels_perm labels labels' :
  labels' ≡ₚ labels → unique_labels labels' = unique_labels labels.
Proof.
  intros Hperm. unfold unique_labels.
  by rewrite (list_to_set_perm_L (C:=gset Z) _ _ Hperm).
Qed.

Lemma enumerate_snd {A} (xs : list A) : (enumerate xs).*2 = xs.
Proof.
  unfold enumerate. rewrite fmap_imap.
  rewrite (imap_ext _ (const id)) by done. rewrite imap_const. apply list_fmap_id.
Qed.

Lemma label_fold_notin (acc : gmap Z string) (l : list (Z * Z)) x :
  x ∉ l.*2 →
  foldl (λ (m : gmap Z string) '(i, label),
           <[label := "Speaker " +:+ pretty (i + 1)]> m) acc l !! x
  = acc !! x.
Proof.
  revert acc. induction l as [|[i y] l IH]; intros acc Hnotin; [done|].
  rewrite fmap_cons in Hnotin. apply not_elem_of_cons in Hnotin as [Hne Hnotin].
  cbn [foldl]. rewrite IH by done. by rewrite lookup_insert_ne.
Qed.

Lemma label_fold_in (acc : gmap Z string) (l : list (Z * Z)) i x :
  NoDup (l.*2) → (i, x) ∈ l →
  foldl (λ (m : gmap Z string) '(i, label),
           <[label := "Speaker " +:+ pretty (i + 1)]> m) acc l !! x
  = Some ("Speaker " +:+ pretty (i + 1)).
Proof.
  revert acc. induction l as [|[j y] l IH]; intros acc Hnd Hin.
  { by apply elem_of_nil in Hin. }
  rewrite fmap_cons in Hnd. apply NoDup_cons in Hnd as [Hnotin Hnd].
  cbn [foldl]. apply elem_of_cons in Hin as [[= -> ->]|Hin].
  - rewrite label_fold_notin by done. by rewrite lookup_insert_eq.
  - by apply IH.
Qed.

(** The entry of the [k]-th smallest distinct raw label. *)
Lemma label_map_lookup labels (k : nat) l :
  unique_labels labels !! k = Some l →
  label_map labels !! l = Some ("Speaker " +:+ pretty (Z.of_nat k + 1)).
Proof.
  intros Hk. unfold label_map. apply label_fold_in.
  - rewrite enumerate_snd. apply unique_labels_NoDup.
  - unfold enumerate.
    apply (elem_of_lookup_imap_2 (λ (i : nat) (x : Z), (Z.of_nat i, x)) _ _ _ Hk).
Qed.

Lemma label_map_is_Some labels l : l ∈ labels → is_Some (label_map labels !! l).
Proof.
  intros Hl. apply unique_labels_elem, list_elem_of_lookup in Hl as [k Hk].
  rewrite (label_map_lookup _ _ _ Hk). eauto.
Qed.

Lemma label_map_perm labels labels' :
  labels' ≡ₚ labels → label_map labels' = label_map labels.
Proof. intros Hperm. unfold label_map. by rewrite (unique_labels_perm _ _ Hperm). Qed.

(** The smallest raw label is displayed as ["Speaker 1"]. *)
Lemma label_map_min labels l :
  l ∈ labels → (∀ x, x ∈ labels → l ≤ x) →
  label_map labels !! l = Some "Speaker 1".
Proof.
  intros Hl Hmin. pose proof (unique_labels_sorted labels) as Hsorted.
  destruct (unique_labels labels) as [|h us] eqn:Hus.
  { apply unique_labels_elem in Hl. rewrite Hus in Hl. by apply elem_of_nil in Hl. }
  assert (Hh : h ∈ labels).
  { apply unique_labels_elem. rewrite Hus. apply list_elem_of_here. }
  assert (h = l) as ->.
  { specialize (Hmin h Hh). apply unique_labels_elem in Hl. rewrite Hus in Hl.
    apply elem_of_cons in Hl as [->|Hl]; [done|].
    apply StronglySorted_inv in Hsorted as [_ Hall].
    rewrite Forall_forall in Hall. specialize (Hall l Hl). lia. }
  apply (label_map_lookup labels 0). by rewrite Hus.
Qed.

(** C2.  The display labels enumerate the distinct raw labels in
    ascending order, from 1: the [k]-th smallest (counting from 0) maps to
    ["Speaker {k + 1}"], so the smallest maps to ["Speaker 1"]; the order
    in which the raw labels appear in time plays no part. *)
Theorem label_map_sorted_enumeration labels :
  labels ≠ [] →
  ∃ us : list Z,
    us ≠ [] ∧ StronglySorted Z.lt us ∧ (∀ x, x ∈ us ↔ x ∈ labels) ∧
    (∀ (k : nat) l, us !! k = Some l →
       label_map labels !! l = Some ("Speaker " +:+ pretty (Z.of_nat k + 1))) ∧
    (∀ l, l ∈ labels → (∀ x, x ∈ labels → l ≤ x) →
       label_map labels !! l = Some "Speaker 1") ∧
    (∀ labels', labels' ≡ₚ labels → label_map labels' = label_map labels).
Proof.
  intros Hne. exists (unique_labels labels).
  pose proof (unique_labels_sorted labels) as Hsorted.
  split_and!.
  - destruct labels as [|x labels]; [done|]. intros Hnil.
    assert (Hx : x ∈ unique_labels (x :: labels)).
    { apply unique_labels_elem, list_elem_of_here. }
    rewrite Hnil in Hx. by apply elem_of_nil in Hx.
  - done.
  - apply unique_labels_elem.
  - apply label_map_lookup.
  - apply label_map_min.
  - apply label_map_perm.
Qed.

Lemma first_seen_elem labels x : x ∈ first_seen labels ↔ x ∈ labels.
Proof.
  induction labels as [|y labels IH]; simpl; [done|].
  rewrite !elem_of_cons, list_elem_of_filter, IH.
  destruct (decide (x = y)); tauto.
Qed.

Lemma first_seen_NoDup labels : NoDup (first_seen labels).
Proof.
  induction labels as [|y labels IH]; simpl; [constructor|].
  apply NoDup_cons. split; [|by apply NoDup_filter].
  rewrite list_elem_of_filter. tauto.
Qed.

Lemma first_seen_sorted_unique labels :
  StronglySorted Z.lt (first_seen labels) → first_seen labels = unique_labels labels.
Proof.
  intros Hsorted. apply (StronglySorted_unique_strong Z.lt).
  - intros. lia.
  - done.
  - apply unique_labels_sorted.
  - apply NoDup_Permutation.
    + apply first_seen_NoDup.
    + apply unique_labels_NoDup.
    + intros x. by rewrite first_seen_elem, unique_labels_elem.
Qed.

(** The number in a display label determines the rank of the raw label. *)
Lemma label_map_lookup_inv labels (k k' : nat) l :
  unique_labels labels !! k = Some l →
  label_map labels !! l = Some ("Speaker " +:+ pretty (Z.of_nat k' + 1)) →
  k' = k.
Proof.
  intros Hk Hl. rewrite (label_map_lookup _ _ _ Hk) in Hl.
  apply (inj Some) in Hl. apply (inj (String.append "Speaker ")) in Hl.
  apply (inj pretty) in Hl. lia.
Qed.

(** In an ascending list without repetition, the elements below the one
    at index [k] are the [k] elements before it. *)
Lemma sorted_filter_lt (us : list Z) (k : nat) l :
  StronglySorted Z.lt us → us !! k = Some l →
  filter (λ x, x < l) us = take k us.
Proof.
  intros Hsorted. revert k. induction Hsorted as [|a us Hus IH Ha]; intros k Hk; [done|].
  rewrite Forall_forall in Ha. destruct k as [|k]; simpl in Hk.
  - injection Hk as ->. rewrite filter_cons_False by lia. simpl.
    clear IH Hus. induction us as [|x us IH]; [done|].
    rewrite filter_cons_False; [apply IH|].
    + intros y Hy. apply Ha. by apply list_elem_of_further.
    + assert (l < x) by apply Ha, list_elem_of_here. lia.
  - assert (a < l) by (apply Ha; by eapply list_elem_of_lookup_2).
    rewrite filter_cons_True by done. simpl. f_equal. by apply IH.
Qed.

(** The number of a raw label is its rank among the distinct raw labels:
    one more than the number of distinct raw labels below it. *)
Lemma label_map_rank labels l :
  l ∈ labels →
  ∃ k : nat,
    unique_labels labels !! k = Some l ∧
    k = length (filter (λ x, x < l) (unique_labels labels)) ∧
    label_map labels !! l = Some ("Speaker " +:+ pretty (Z.of_nat k + 1)).
Proof.
  intros Hl. apply unique_labels_elem, list_elem_of_lookup in Hl as [k Hk].
  exists k. split; [done|]. split; [|by apply label_map_lookup].
  rewrite (sorted_filter_lt _ k l (unique_labels_sorted labels) Hk).
  apply lookup_lt_Some in Hk. rewrite length_take. lia.
Qed.

(** Only the smallest raw label is displayed as ["Speaker 1"]. *)
Lemma label_map_speaker_1 labels l :
  l ∈ labels →
  label_map labels !! l = Some "Speaker 1" ↔ ∀ x, x ∈ labels → l ≤ x.
Proof.
  intros Hl. split; [|by apply label_map_min].
  intros Hone x Hx. pose proof (unique_labels_sorted labels) as Hsorted.
  apply unique_labels_elem, list_elem_of_lookup in Hl as [k Hk].
  assert (0%nat = k) as <- by exact (label_map_lookup_inv labels k 0 l Hk Hone).
  apply unique_labels_elem in Hx.
  destruct (unique_labels labels) as [|h us]; [done|].
  injection Hk as ->. apply elem_of_cons in Hx as [->|Hx]; [done|].
  apply StronglySorted_inv in Hsorted as [_ Hall].
  rewrite Forall_forall in Hall. specialize (Hall x Hx). lia.
Qed.

(** The first-appearance numbering is the one of the code only when the
    distinct raw labels first appear in ascending order. *)
Lemma first_seen_numbering_sorted labels :
  first_seen_numbering labels → StronglySorted Z.lt (first_seen labels).
Proof.
  intros Hnum. assert (first_seen labels = unique_labels labels) as ->;
    [|apply unique_labels_sorted].
  assert (Hperm : first_seen labels ≡ₚ unique_labels labels).
  { apply NoDup_Permutation.
    - apply first_seen_NoDup.
    - apply unique_labels_NoDup.
    - intros x. by rewrite first_seen_elem, unique_labels_elem. }
  apply (list_eq_same_length _ _ (length (unique_labels labels)));
    [done|by rewrite Hperm|].
  intros i x y _ Hx Hy. specialize (Hnum i x Hx).
  assert (Hin : x ∈ labels) by (by eapply first_seen_elem, list_elem_of_lookup_2).
  apply unique_labels_elem, list_elem_of_lookup in Hin as [k Hk].
  assert (i = k) as -> by exact (label_map_lookup_inv labels k i x Hk Hnum).
  rewrite Hk in Hy. by injection Hy.
Qed.

(** C3, amended.  The number [n] of the display label ["Speaker n"] is
    the 1-based order of first appearance of the raw label exactly when
    the distinct raw labels first appear in ascending order; in general
    [n] is the 1-based rank of the raw label among the sorted distinct raw
    labels, that is one more than the number of distinct raw labels below
    it; so a raw label, the one of the earliest chunk included, is
    displayed as ["Speaker 1"] only when it is the smallest raw label. *)
Theorem label_map_first_seen_ascending labels :
  (first_seen_numbering labels ↔ StronglySorted Z.lt (first_seen labels)) ∧
  (∀ l, l ∈ labels →
     ∃ k : nat,
       unique_labels labels !! k = Some l ∧
       k = length (filter (λ x, x < l) (unique_labels labels)) ∧
       label_map labels !! l = Some ("Speaker " +:+ pretty (Z.of_nat k + 1))) ∧
  (∀ l, l ∈ labels →
     label_map labels !! l = Some "Speaker 1" ↔ ∀ x, x ∈ labels → l ≤ x) ∧
  (∀ l, head labels = Some l →
     label_map labels !! l = Some "Speaker 1" ↔ ∀ x, x ∈ labels → l ≤ x).
Proof.
  split_and!.
  - split; [apply first_seen_numbering_sorted|].
    intros Hsorted k l Hk. rewrite first_seen_sorted_unique in Hk by done.
    by apply label_map_lookup.
  - apply label_map_rank.
  - apply label_map_speaker_1.
  - intros l Hhead. apply label_map_speaker_1.
    destruct labels as [|x labels]; [done|]. injection Hhead as ->.
    apply list_elem_of_here.
Qed.

(** C3 fails as worded: with raw labels [1; 0] the earliest chunk's label
    is displayed as ["Speaker 2"]. *)
Lemma first_seen_numbering_counterexample : ¬ first_seen_numbering [1; 0].
Proof.
  intros H. specialize (H 0%nat 1 eq_refl). vm_compute in H. discriminate H.
Qed.

(** ** Neighbours in a list *)

Lemma adjacent_nil {A} (R : A → A → Prop) : adjacent R [].
Proof. by intros i a b Ha. Qed.

Lemma adjacent_singleton {A} (R : A → A → Prop) x : adjacent R [x].
Proof. by intros i a b Ha Hb. Qed.

Lemma adjacent_snoc {A} (R : A → A → Prop) (l : list A) x :
  adjacent R (l ++ [x]) ↔ adjacent R l ∧ ∀ y, last l = Some y → R y x.
Proof.
  split.
  - intros H. split.
    + intros i a b Ha Hb. apply (H i); by apply lookup_app_l_Some.
    + intros y Hy. apply last_Some in Hy as [l' ->]. apply (H (length l')).
      * rewrite <- app_assoc. by apply list_lookup_middle.
      * rewrite lookup_app_r; rewrite length_app; simpl; [|lia].
        by replace (S (length l') - (length l' + 1))%nat with 0%nat by lia.
  - intros [Hl Hlast] i a b Ha Hb.
    destruct (decide (S i < length l)%nat) as [Hlt|Hge].
    + rewrite lookup_app_l in Ha, Hb by lia. by apply (Hl i).
    + pose proof (lookup_lt_Some _ _ _ Hb) as Hlen.
      rewrite length_app in Hlen. simpl in Hlen.
      rewrite lookup_app_r in Hb by lia.
      replace (S i - length l)%nat with 0%nat in Hb by lia.
      injection Hb as <-.
      rewrite lookup_app_l in Ha by lia. apply Hlast.
      rewrite last_lookup. by replace (pred (length l)) with i by lia.
Qed.

Lemma adjacent_zip_fst {A B} (R : A → A → Prop) (l : list A) (k : list B) :
  adjacent R l → adjacent (λ a b, R a.1 b.1) (zip l k).
Proof.
  intros Hl i [a a'] [b b'] Ha Hb. simpl.
  apply lookup_zip_with_Some in Ha as (? & ? & [= <- <-] & Ha & _).
  apply lookup_zip_with_Some in Hb as (? & ? & [= <- <-] & Hb & _).
  by apply (Hl i).
Qed.

(** ** The merge loop *)

Lemma merge_loop_snoc lm items x st :
  merge_loop lm (items ++ [x]) st
  = merge_loop lm items st ≫= λ st', merge_step lm st' x.
Proof.
  revert st. induction items as [|y items IH]; intros st.
  - cbn [app merge_loop mbind option_bind]. by destruct (merge_step lm st x).
  - cbn [app merge_loop]. destruct (merge_step lm st y) as [st'|]; [|done].
    cbn [mbind option_bind]. apply IH.
Qed.

Lemma merge_loop_total lm items st :
  (∀ x, x ∈ items → is_Some (lm !! x.2)) → is_Some (merge_loop lm items st).
Proof.
  revert st. induction items as [|[[s e] label] items IH]; intros st Hdom; [by eexists|].
  cbn [merge_loop]. destruct st as [segments current].
  destruct (Hdom ((s, e), label)) as [speaker Hsp]; [apply list_elem_of_here|].
  simpl in Hsp. unfold merge_step. rewrite Hsp. cbn [mbind option_bind].
  assert (Hrest : ∀ x, x ∈ items → is_Some (lm !! x.2)).
  { intros x Hx. apply Hdom. by apply list_elem_of_further. }
  destruct current as [[[cs ce] csp]|]; [destruct (decide (speaker = csp))|];
    cbn [mbind option_bind]; by apply IH.
Qed.

(** What the loop has built after the items [items], started on the
    empty state; [segments ++ option_list current] is the list the final
    flush returns. *)
Lemma merge_loop_inv lm items segments current :
  merge_loop lm items ([], None) = Some (segments, current) →
  (items = [] → segments = [] ∧ current = None) ∧
  (∀ x, last items = Some x →
     ∃ c, current = Some c ∧ seg_end c = x.1.2 ∧ lm !! x.2 = Some (seg_label c)) ∧
  (∀ x, head items = Some x →
     ∃ f, head (segments ++ option_list current) = Some f ∧ seg_start f = x.1.1) ∧
  (length (segments ++ option_list current) ≤ length items)%nat ∧
  adjacent (λ a b, seg_label a ≠ seg_label b) (segments ++ option_list current) ∧
  (∀ seg, seg ∈ segments ++ option_list current →
     ∃ x, x ∈ items ∧ lm !! x.2 = Some (seg_label seg)) ∧
  (adjacent (λ a b, a.1.2 = b.1.1) items →
   adjacent (λ a b, seg_end a = seg_start b) (segments ++ option_list current)).
Proof.
  revert segments current.
  induction items as [|x items IH] using rev_ind; intros segments current Hloop.
  { injection Hloop as <- <-. split_and!; try done.
    intros seg Hseg. by apply elem_of_nil in Hseg. }
  rewrite merge_loop_snoc in Hloop.
  destruct (merge_loop lm items ([], None)) as [[segs0 cur0]|] eqn:H0; [|done].
  cbn [mbind option_bind] in Hloop.
  destruct (IH _ _ eq_refl) as (Hnil & Hlast & Hhead & Hlen & Hdist & Hlab & Hcont).
  clear IH.
  destruct x as [[s e] label]. unfold merge_step in Hloop.
  destruct (lm !! label) as [speaker|] eqn:Hlm; [|done].
  cbn [mbind option_bind] in Hloop.
  assert (Hsnoc_ne : items ++ [(s, e, label)] ≠ []) by (by destruct items).
  destruct cur0 as [[[cs ce] csp]|].
  - (* a segment is running *)
    destruct (last items) as [x'|] eqn:Hlx; last first.
    { apply last_None in Hlx. by destruct (Hnil Hlx). }
    destruct (Hlast x' eq_refl) as (c & [= <-] & Hce & Hcsp). simpl in Hce, Hcsp.
    assert (Hhd : head (items ++ [(s, e, label)]) = head items).
    { destruct items; [done|done]. }
    cbn [option_list] in *.
    apply adjacent_snoc in Hdist as [Hdist0 Hdist1].
    destruct (decide (speaker = csp)) as [->|Hne]; injection Hloop as <- <-;
      cbn [option_list].
    + (* same speaker: the running segment is extended *)
      split_and!.
      * done.
      * intros x. rewrite last_snoc. intros [= <-]. by eexists.
      * intros x. rewrite Hhd. intros Hx. destruct (Hhead x Hx) as (f & Hf & Hfs).
        destruct segs0 as [|f0 segs0]; simpl in *; [|by exists f].
        injection Hf as <-. by eexists.
      * rewrite !length_app in *. simpl in *. lia.
      * apply adjacent_snoc. split; [done|]. intros y Hy. by apply Hdist1.
      * intros seg Hseg. apply elem_of_app in Hseg as [Hseg|Hseg].
        -- destruct (Hlab seg) as (x & Hx & Hxl); [apply elem_of_app; by left|].
           exists x. split; [|done]. apply elem_of_app. by left.
        -- apply list_elem_of_singleton in Hseg as ->.
           exists (s, e, label). split; [|done]. apply elem_of_app. right.
           apply list_elem_of_here.
      * intros Hadj. apply adjacent_snoc in Hadj as [Hadj0 Hadj1].
        specialize (Hcont Hadj0). apply adjacent_snoc in Hcont as [Hc0 Hc1].
        apply adjacent_snoc. split; [done|]. intros y Hy. by apply Hc1.
    + (* another speaker: the running segment is closed *)
      split_and!.
      * done.
      * intros x. rewrite last_snoc. intros [= <-]. by eexists.
      * intros x. rewrite Hhd. intros Hx. destruct (Hhead x Hx) as (f & Hf & Hfs).
        exists f. split; [|done]. by destruct segs0.
      * rewrite !length_app in *. simpl in *. lia.
      * apply adjacent_snoc. split; [by apply adjacent_snoc|].
        intros y. rewrite last_snoc. intros [= <-]. simpl. congruence.
      * intros seg Hseg. apply elem_of_app in Hseg as [Hseg|Hseg].
        -- destruct (Hlab seg Hseg) as (x & Hx & Hxl).
           exists x. split; [|done]. apply elem_of_app. by left.
        -- apply list_elem_of_singleton in Hseg as ->.
           exists (s, e, label). split; [|done]. apply elem_of_app. right.
           apply list_elem_of_here.
      * intros Hadj. apply adjacent_snoc in Hadj as [Hadj0 Hadj1].
        apply adjacent_snoc. split; [by apply Hcont|].
        intros y. rewrite last_snoc. intros [= <-].
        unfold seg_end, seg_start in *. simpl in *.
        rewrite Hce. by apply (Hadj1 x').
  - (* first iteration *)
    assert (Hitems : items = []).
    { destruct (last items) as [x'|] eqn:Hlx; [|by apply last_None].
      by destruct (Hlast x' eq_refl) as (c & ? & _). }
    subst items. destruct (Hnil eq_refl) as [-> _].
    injection Hloop as <- <-. cbn [app option_list].
    split_and!; try done.
    + intros x [= <-]. by eexists.
    + intros x [= <-]. by eexists.
    + intros seg Hseg. apply list_elem_of_singleton in Hseg as ->.
      exists (s, e, label). split; [apply list_elem_of_here|done].
Qed.

(** ** The merger *)

Lemma zip_head {A B} (l : list A) (k : list B) a :
  length k = length l → head l = Some a →
  ∃ b, head (zip l k) = Some (a, b).
Proof.
  intros Hlen Ha. destruct l as [|a' l]; [done|]. injection Ha as ->.
  destruct k as [|b k]; [done|]. by exists b.
Qed.

Lemma zip_last {A B} (l : list A) (k : list B) a :
  length k = length l → last l = Some a →
  ∃ b, last (zip l k) = Some (a, b).
Proof.
  intros Hlen Ha. rewrite last_lookup in Ha.
  destruct (lookup_lt_is_Some_2 k (pred (length l))) as [b Hb].
  { apply lookup_lt_Some in Ha. lia. }
  exists b. rewrite last_lookup, length_zip_with_l_eq by done.
  apply lookup_zip_with_Some. by exists a, b.
Qed.

(** The merger returns for every input; its result carries the loop
    invariant. *)
Lemma merger_spec chunk_times labels :
  ∃ segments,
    merger chunk_times labels = Some segments ∧
    (∀ x, last (zip chunk_times labels) = Some x →
       ∃ c, last segments = Some c ∧ seg_end c = x.1.2 ∧
            label_map labels !! x.2 = Some (seg_label c)) ∧
    (∀ x, head (zip chunk_times labels) = Some x →
       ∃ f, head segments = Some f ∧ seg_start f = x.1.1) ∧
    (length segments ≤ length (zip chunk_times labels))%nat ∧
    adjacent (λ a b, seg_label a ≠ seg_label b) segments ∧
    (∀ seg, seg ∈ segments →
       ∃ x, x ∈ zip chunk_times labels ∧
            label_map labels !! x.2 = Some (seg_label seg)) ∧
    (adjacent (λ a b, a.2 = b.1) chunk_times →
     adjacent (λ a b, seg_end a = seg_start b) segments).
Proof.
  destruct (merge_loop_total (label_map labels) (zip chunk_times labels) ([], None))
    as [[segments current] Hloop].
  { intros [t l] Hx. simpl. apply label_map_is_Some.
    apply list_elem_of_lookup in Hx as [i Hi].
    apply lookup_zip_with_Some in Hi as (? & ? & [= <- <-] & _ & Hl).
    by eapply list_elem_of_lookup_2. }
  destruct (merge_loop_inv _ _ _ _ Hloop)
    as (Hnil & Hlast & Hhead & Hlen & Hdist & Hlab & Hcont).
  exists (segments ++ option_list current). split.
  { unfold merger. rewrite Hloop. cbn [mbind option_bind].
    destruct current; [done|]. simpl. by rewrite app_nil_r. }
  split_and!; try done.
  - intros x Hx. destruct (Hlast x Hx) as (c & -> & Hc). exists c.
    split; [apply last_snoc|done].
  - intros Hadj. apply Hcont. by apply (adjacent_zip_fst (λ a b, a.2 = b.1)).
Qed.

(** C4.  Merging the chunker's time ranges with one label per chunk
    gives at most as many segments as chunks; neighbouring segments
    differ in their speaker label and leave no gap between them; and the
    segments span the kept chunks, from the start of the first to the end
    of the last. *)
Theorem merger_contiguity audio duration chunks chunk_times labels :
  0 < SAMPLE_RATE →
  load_duration audio = Some duration →
  chunker audio duration = Some (chunks, chunk_times) →
  length labels = length chunk_times →
  ∃ segments,
    merger chunk_times labels = Some segments ∧
    (length segments ≤ length chunk_times)%nat ∧
    adjacent (λ a b, seg_label a ≠ seg_label b) segments ∧
    adjacent (λ a b, seg_end a = seg_start b) segments ∧
    (∀ c, head chunk_times = Some c →
       ∃ f, head segments = Some f ∧ seg_start f = c.1) ∧
    (∀ c, last chunk_times = Some c →
       ∃ l, last segments = Some l ∧ seg_end l = c.2).
Proof.
  intros Hsr Hdur Hchunker Hlen.
  destruct (merger_spec chunk_times labels)
    as (segments & Hmerger & Hlast & Hhead & Hle & Hdist & _ & Hcont).
  exists segments. split_and!; try done.
  - by rewrite length_zip_with_l_eq in Hle.
  - apply Hcont. intros i a b Ha Hb.
    by apply (chunk_times_gapless _ _ _ _ Hsr Hdur Hchunker i a b).
  - intros c Hc. destruct (zip_head _ labels _ Hlen Hc) as [l Hz].
    by destruct (Hhead _ Hz) as (f & Hf & Hfs); exists f.
  - intros c Hc. destruct (zip_last _ labels _ Hlen Hc) as [l Hz].
    by destruct (Hlast _ Hz) as (f & Hf & Hfe & _); exists f.
Qed.

(** ** [diarize] *)

Lemma diarize_traced_unfold audio duration chunks chunk_times :
  load_duration audio = Some duration →
  chunker audio duration = Some (chunks, chunk_times) →
  diarize_traced audio
  = match chunks with
    | [] => Some ([(0%Q, duration, "Speaker 1")], false)
    | _ =>
        let '(labels, invoked) := cluster (encode_batch <$> chunks) in
        segments ← merger chunk_times labels;
        Some (segments, invoked)
    end.
Proof.
  intros Hdur Hchunker. unfold diarize_traced.
  rewrite Hdur. cbn [mbind option_bind]. by rewrite Hchunker.
Qed.

Lemma chunker_lengths audio duration chunks chunk_times :
  SAMPLE_RATE ≠ 0 →
  chunker audio duration = Some (chunks, chunk_times) →
  length chunk_times = length chunks.
Proof.
  intros Hsr Hchunker.
  destruct (chunker_spec _ _ _ _ Hsr Hchunker) as (indices & _ & -> & ->).
  by rewrite !length_fmap.
Qed.

(** A buffer shorter than two seconds leaves no chunk. *)
Lemma chunker_too_short audio duration :
  0 < SAMPLE_RATE → CHUNK_DURATION_SEC ≠ 0 →
  len audio < 2 * SAMPLE_RATE →
  chunker audio duration = Some ([], []).
Proof.
  intros Hsr Hcd Hshort.
  destruct (chunker_total audio duration ltac:(lia) Hcd) as (chunks & chunk_times & Hchunker).
  destruct (chunker_spec _ _ _ _ ltac:(lia) Hchunker) as (indices & Hrange & -> & ->).
  rewrite Hchunker.
  destruct (filter (viable audio) indices) as [|i kept] eqn:Hkept; [done|].
  assert (Hi : i ∈ filter (viable audio) indices).
  { rewrite Hkept. apply list_elem_of_here. }
  apply list_elem_of_filter in Hi as [Hv Hi].
  destruct (range_elem _ _ _ (len_nonneg audio) Hrange Hi) as [Hcl Hbound].
  unfold viable in Hv. rewrite len_window in Hv by lia. lia.
Qed.

Lemma sec_rate : SAMPLE_RATE ≠ 0 → sec SAMPLE_RATE = 1%Q.
Proof.
  intros Hsr. unfold sec. change 1%Q with (Qred 1). apply Qred_complete.
  apply Qmult_inv_r. change 0%Q with (inject_Z 0).
  by rewrite inject_Z_injective.
Qed.

(** C5.  When no chunk survives, [diarize] returns the single segment
    [(0.0, duration, "Speaker 1")] and the clusterer is never reached;
    this is the case of every buffer shorter than two seconds, and a
    buffer of one second ([SAMPLE_RATE] samples) gives
    [(0.0, 1.0, "Speaker 1")]. *)
Theorem diarize_too_short audio :
  0 < SAMPLE_RATE → CHUNK_DURATION_SEC ≠ 0 →
  (∀ duration,
     load_duration audio = Some duration →
     chunker audio duration = Some ([], []) →
     diarize_traced audio = Some ([(0%Q, duration, "Speaker 1")], false)) ∧
  (len audio < 2 * SAMPLE_RATE →
     chunker audio (sec (len audio)) = Some ([], []) ∧
     diarize_traced audio = Some ([(0%Q, sec (len audio), "Speaker 1")], false)) ∧
  (len audio = SAMPLE_RATE →
     diarize audio = Some [(0%Q, 1%Q, "Speaker 1")]).
Proof.
  intros Hsr Hcd.
  assert (Hdur : load_duration audio = Some (sec (len audio))).
  { unfold load_duration. by rewrite truediv_Some by lia. }
  assert (Hshort : len audio < 2 * SAMPLE_RATE →
    diarize_traced audio = Some ([(0%Q, sec (len audio), "Speaker 1")], false)).
  { intros Hlt.
    by rewrite (diarize_traced_unfold _ _ _ _ Hdur (chunker_too_short _ _ Hsr Hcd Hlt)). }
  split_and!.
  - intros duration Hd Hchunker. by rewrite (diarize_traced_unfold _ _ _ _ Hd Hchunker).
  - intros Hlt. split; [by apply chunker_too_short|by apply Hshort].
  - intros Hlen. unfold diarize. rewrite Hshort by lia.
    rewrite Hlen, sec_rate by lia. done.
Qed.

(** C9.  With exactly one kept chunk the clusterer is not called: the
    chunk gets the fixed label 0 and [diarize] returns one segment with
    that chunk's recorded time range. *)
Theorem diarize_single_chunk audio duration chunks chunk_times :
  load_duration audio = Some duration →
  chunker audio duration = Some (chunks, chunk_times) →
  length chunks = 1%nat →
  ∃ start_sec end_sec,
    chunk_times = [(start_sec, end_sec)] ∧
    cluster (encode_batch <$> chunks) = ([0], false) ∧
    diarize_traced audio = Some ([(start_sec, end_sec, "Speaker 1")], false).
Proof.
  intros Hdur Hchunker Hone.
  pose proof (load_duration_sec _ _ Hdur) as [Hsr _].
  pose proof (chunker_lengths _ _ _ _ Hsr Hchunker) as Hlen.
  destruct chunks as [|chunk [|? ?]]; [done| |done].
  destruct chunk_times as [|[start_sec end_sec] [|? ?]]; [done| |done].
  exists start_sec, end_sec. split; [done|]. split; [done|].
  by rewrite (diarize_traced_unfold _ _ _ _ Hdur Hchunker).
Qed.

(** Merging chunks that all carry the label 0 gives one segment, from
    the start of the first chunk to the end of the last. *)
Lemma merger_single_label chunk_times first_start first_end last_start last_end :
  head chunk_times = Some (first_start, first_end) →
  last chunk_times = Some (last_start, last_end) →
  merger chunk_times (replicate (length chunk_times) 0)
  = Some [(first_start, last_end, "Speaker 1")].
Proof.
  intros Hfirst Hlast_t.
  set (labels := replicate (length chunk_times) 0).
  assert (Hlen : length labels = length chunk_times) by apply length_replicate.
  destruct (merger_spec chunk_times labels)
    as (segments & Hmerger & Hlast & Hhead & _ & Hdist & Hlab & _).
  rewrite Hmerger. f_equal.
  destruct (zip_head _ labels _ Hlen Hfirst) as [l0 Hz0].
  destruct (zip_last _ labels _ Hlen Hlast_t) as [l1 Hz1].
  destruct (Hhead _ Hz0) as (f & Hf & Hfs).
  destruct (Hlast _ Hz1) as (c & Hc & Hce & _). simpl in Hfs, Hce.
  assert (Hall : ∀ seg, seg ∈ segments → seg_label seg = "Speaker 1").
  { intros seg Hseg. destruct (Hlab seg Hseg) as ([t l] & Hx & Hl). simpl in Hl.
    assert (Hin : l ∈ labels).
    { apply list_elem_of_lookup in Hx as [i Hi].
      apply lookup_zip_with_Some in Hi as (? & ? & [= <- <-] & _ & Hi).
      by eapply list_elem_of_lookup_2. }
    pose proof Hin as Hin0. apply elem_of_replicate in Hin0 as [-> _].
    rewrite label_map_min in Hl; [by injection Hl|done|].
    intros x Hx'. by apply elem_of_replicate in Hx' as [-> _]. }
  destruct segments as [|a [|b rest]]; [done| |].
  - injection Hf as ->. injection Hc as ->.
    destruct c as [[cs ce] cl]. unfold seg_start, seg_end in *. simpl in *.
    subst cs ce. f_equal. f_equal.
    apply (Hall (first_start, last_end, cl)), list_elem_of_here.
  - exfalso. apply (Hdist 0%nat a b eq_refl eq_refl).
    rewrite (Hall a), (Hall b); [done| |apply list_elem_of_here].
    apply list_elem_of_further, list_elem_of_here.
Qed.

(** C6.  With at least two kept chunks, a clusterer that raises is
    absorbed: every chunk gets the label 0 and [diarize] returns the one
    segment that runs from the first kept chunk's start to the last kept
    chunk's end, labelled ["Speaker 1"]. *)
Theorem diarize_clustering_failure audio duration chunks chunk_times :
  load_duration audio = Some duration →
  chunker audio duration = Some (chunks, chunk_times) →
  (2 ≤ length chunks)%nat →
  fit_predict (encode_batch <$> chunks) = None →
  cluster (encode_batch <$> chunks) = (replicate (length chunks) 0, true) ∧
  ∃ first_start first_end last_start last_end,
    head chunk_times = Some (first_start, first_end) ∧
    last chunk_times = Some (last_start, last_end) ∧
    diarize audio = Some [(first_start, last_end, "Speaker 1")].
Proof.
  intros Hdur Hchunker Htwo Hraise.
  pose proof (load_duration_sec _ _ Hdur) as [Hsr _].
  pose proof (chunker_lengths _ _ _ _ Hsr Hchunker) as Hlen.
  assert (Hcluster :
    cluster (encode_batch <$> chunks) = (replicate (length chunks) 0, true)).
  { unfold cluster, len. rewrite Hraise, length_fmap, Nat2Z.id.
    destruct (decide (Z.of_nat (length chunks) < 2)); [lia|done]. }
  split; [done|].
  destruct (head chunk_times) as [[first_start first_end]|] eqn:Hfirst; last first.
  { apply head_None in Hfirst. subst chunk_times. simpl in Hlen. lia. }
  destruct (last chunk_times) as [[last_start last_end]|] eqn:Hlast; last first.
  { apply last_None in Hlast. subst chunk_times. simpl in Hlen. lia. }
  exists first_start, first_end, last_start, last_end. split; [done|]. split; [done|].
  unfold diarize. rewrite (diarize_traced_unfold _ _ _ _ Hdur Hchunker), Hcluster.
  destruct chunks as [|chunk chunks]; [simpl in Htwo; lia|].
  rewrite <- Hlen. by rewrite (merger_single_label _ _ _ _ _ Hfirst Hlast).
Qed.

Lemma cluster_length (embeddings : list embedding) :
  (∀ es ls, fit_predict es = Some ls → length ls = length es) →
  embeddings ≠ [] →
  length (cluster embeddings).1 = length embeddings.
Proof.
  intros Hshape Hne. unfold cluster, len.
  destruct (decide (Z.of_nat (length embeddings) < 2)) as [Hlt|Hge].
  - destruct embeddings as [|? [|? ?]]; [done|done|simpl in Hlt; lia].
  - destruct (fit_predict embeddings) as [ls|] eqn:Hfit; simpl.
    + by apply Hshape.
    + by rewrite length_replicate, Nat2Z.id.
Qed.

Lemma walk_snoc m :
  0 < m →
  (λ k, k * chunk_length) <$> seqZ 0 m
  = ((λ k, k * chunk_length) <$> seqZ 0 (m - 1)) ++ [(m - 1) * chunk_length].
Proof.
  intros Hm. replace m with ((m - 1) + 1) at 1 by lia.
  rewrite seqZ_app by lia. rewrite fmap_app. by f_equal.
Qed.

(** C10.  With at least one kept chunk, the first kept chunk starts at
    0: the chunker keeps every window of its walk except possibly the last
    one.  Hence [diarize] returns, and the first segment it returns starts
    at 0; there is such a segment as soon as the clusterer returns one
    label per embedding. *)
Theorem diarize_starts_at_zero audio duration chunks chunk_times :
  0 < SAMPLE_RATE →
  load_duration audio = Some duration →
  chunker audio duration = Some (chunks, chunk_times) →
  chunks ≠ [] →
  (∃ e, head chunk_times = Some (0%Q, e)) ∧
  (∃ indices,
     range 0 (len audio) chunk_length = Some indices ∧
     (filter (viable audio) indices = indices
      ∨ ∃ i, indices = filter (viable audio) indices ++ [i])) ∧
  ∃ segments,
    diarize audio = Some segments ∧
    (∀ first, head segments = Some first → seg_start first = 0%Q) ∧
    ((∀ es ls, fit_predict es = Some ls → length ls = length es) →
     segments ≠ []).
Proof.
  intros Hsr Hdur Hchunker Hne.
  pose proof (chunker_lengths _ _ _ _ ltac:(lia) Hchunker) as Hlen.
  assert (Hne_t : chunk_times ≠ []).
  { intros ->. by destruct chunks. }
  destruct (chunk_times_head _ _ _ _ Hsr Hchunker Hne_t) as [e He].
  rewrite <- head_lookup in He.
  split; [by exists e|]. split.
  { destruct (kept_shape _ _ _ _ Hsr Hchunker Hne_t)
      as (m & M & Hcl & Hlong & Hlo & Hhi & HM & HMm & Hrange & Hfilter & _ & _).
    eexists. split; [exact Hrange|]. rewrite Hfilter.
    destruct HMm as [->|[-> _]]; [by left|].
    right. exists ((m - 1) * chunk_length). apply walk_snoc. lia. }
  unfold diarize. rewrite (diarize_traced_unfold _ _ _ _ Hdur Hchunker).
  assert (Hemb : encode_batch <$> chunks ≠ []) by (by destruct chunks).
  pose proof (cluster_length (encode_batch <$> chunks)) as Hlabels.
  destruct (cluster (encode_batch <$> chunks)) as [labels invoked].
  simpl in Hlabels. rewrite length_fmap, <- Hlen in Hlabels.
  destruct (merger_spec chunk_times labels)
    as (segments & Hmerger & _ & Hhead & Hle & _).
  destruct chunks as [|chunk chunks]; [done|].
  rewrite Hmerger. cbn [mbind option_bind fmap option_fmap option_map fst].
  exists segments. split; [done|].
  destruct chunk_times as [|c chunk_times]; [done|]. injection He as ->.
  destruct labels as [|l0 labels].
  - (* no label at all: nothing is merged *)
    destruct segments; [|simpl in Hle; lia].
    split; [done|]. intros Hshape. specialize (Hlabels Hshape Hemb). done.
  - destruct (Hhead _ eq_refl) as (f & Hf & Hfs). simpl in Hfs.
    split; [|intros _; by destruct segments].
    intros first Hfirst. rewrite Hf in Hfirst. by injection Hfirst as <-.
Qed.


(** ** Every label [diarize] returns is a ["Speaker k"] *)

Lemma label_map_value labels l v :
  label_map labels !! l = Some v →
  ∃ k : nat, v = "Speaker " +:+ pretty (Z.of_nat k + 1).
Proof.
  intros Hv. destruct (decide (l ∈ labels)) as [Hl|Hl].
  - apply unique_labels_elem, list_elem_of_lookup in Hl as [k Hk].
    rewrite (label_map_lookup _ _ _ Hk) in Hv. injection Hv as <-. by exists k.
  - unfold label_map in Hv. rewrite label_fold_notin in Hv; [done|].
    by rewrite enumerate_snd, unique_labels_elem.
Qed.

Lemma merger_labels chunk_times labels segments seg :
  merger chunk_times labels = Some segments → seg ∈ segments →
  seg_label seg ≠ "Unknown".
Proof.
  intros Hmerger Hseg.
  destruct (merger_spec chunk_times labels) as (segments' & Hm & _ & _ & _ & _ & Hlab & _).
  rewrite Hmerger in Hm. injection Hm as <-.
  destruct (Hlab seg Hseg) as (x & _ & Hx).
  apply label_map_value in Hx as [k ->]. done.
Qed.

Lemma diarize_labels audio segments seg :
  diarize audio = Some segments → seg ∈ segments → seg_label seg ≠ "Unknown".
Proof.
  unfold diarize, diarize_traced. intros Hd Hseg.
  destruct (load_duration audio) as [duration|]; [|done].
  cbn [mbind option_bind] in Hd.
  destruct (chunker audio duration) as [[chunks chunk_times]|]; [|done].
  cbn [mbind option_bind] in Hd.
  destruct chunks as [|chunk chunks].
  - injection Hd as <-. by apply list_elem_of_singleton in Hseg as ->.
  - destruct (cluster (encode_batch <$> chunk :: chunks)) as [labels invoked].
    destruct (merger chunk_times labels) as [segments'|] eqn:Hmerger; [|done].
    injection Hd as <-. by eapply merger_labels.
Qed.


(** ** Beyond the claims: [diarize], the merger and [get_speaker_count] *)

(** Once the model and the audio are loaded at a positive sample rate and
    the embeddings are computed, lines 42-113 of [diarize] raise exactly
    when the chunk duration is zero ([ValueError] from [range]): no label
    list the clusterer can return, of whatever length, makes the lookup in
    [label_map] fail. *)
Theorem diarize_loaded_raises_iff audio :
  0 < SAMPLE_RATE →
  diarize audio = None ↔ CHUNK_DURATION_SEC = 0.
Proof.
  intros Hpos. assert (Hsr : SAMPLE_RATE ≠ 0) by lia.
  unfold diarize, diarize_traced, load_duration.
  rewrite truediv_Some by done. cbn [mbind option_bind]. split.
  - intros Hnone.
    destruct (decide (CHUNK_DURATION_SEC = 0)) as [|Hcd]; [done|].
    exfalso.
    destruct (chunker_total audio (Qred (inject_Z (len audio) / inject_Z SAMPLE_RATE))
                Hsr Hcd) as (chunks & chunk_times & Hchunker).
    rewrite Hchunker in Hnone. cbn [mbind option_bind] in Hnone.
    destruct chunks as [|chunk chunks]; [done|].
    destruct (cluster (encode_batch <$> chunk :: chunks)) as [labels invoked].
    destruct (merger_spec chunk_times labels) as (segments & Hmerger & _).
    by rewrite Hmerger in Hnone.
  - intros Hcd. unfold chunker, range, chunk_length.
    rewrite Hcd, Z.mul_0_r. by destruct (decide (0 = 0)).
Qed.

Lemma run_segment_snoc lm run seg x e :
  run_segment lm run seg →
  lm !! x.2 = Some (seg_label seg) → x.1.2 = e →
  run_segment lm (run ++ [x]) (seg_start seg, e, seg_label seg).
Proof.
  intros (f & l & Hf & Hl & Hs & He & Hall) Hx <-.
  exists f, x. split_and!.
  - by destruct run.
  - apply last_snoc.
  - done.
  - done.
  - apply Forall_app. split; [done|]. by constructor.
Qed.

Lemma merge_loop_runs lm items segments current :
  merge_loop lm items ([], None) = Some (segments, current) →
  ∃ runs,
    concat runs = items ∧
    Forall2 (run_segment lm) runs (segments ++ option_list current).
Proof.
  revert segments current.
  induction items as [|x items IH] using rev_ind; intros segments current Hloop.
  { injection Hloop as <- <-. exists []. split; [done|constructor]. }
  pose proof Hloop as Hloop'.
  rewrite merge_loop_snoc in Hloop.
  destruct (merge_loop lm items ([], None)) as [[segs0 cur0]|] eqn:H0; [|done].
  cbn [mbind option_bind] in Hloop.
  destruct (IH _ _ eq_refl) as (runs & Hconcat & Hruns).
  destruct (merge_loop_inv _ _ _ _ H0) as (Hnil & Hlast & _).
  destruct x as [[s e] label]. unfold merge_step in Hloop.
  destruct (lm !! label) as [speaker|] eqn:Hlm; [|done].
  cbn [mbind option_bind] in Hloop.
  destruct cur0 as [[[cs ce] csp]|].
  - cbn [option_list] in Hruns.
    apply Forall2_app_inv_r in Hruns as (runs0 & runs1 & Hruns0 & Hruns1 & ->).
    apply Forall2_cons_inv_r in Hruns1 as (run & runs2 & Hrun & Hnil2 & ->).
    apply Forall2_nil_inv_r in Hnil2 as ->.
    destruct (decide (speaker = csp)) as [->|Hne]; injection Hloop as <- <-;
      cbn [option_list].
    + exists (runs0 ++ [run ++ [(s, e, label)]]). split.
      * rewrite <- Hconcat, !concat_app. simpl. by rewrite !app_nil_r, app_assoc.
      * apply Forall2_app; [done|]. constructor; [|constructor].
        by apply (run_segment_snoc lm run (cs, ce, csp) (s, e, label) e).
    + exists ((runs0 ++ [run]) ++ [[(s, e, label)]]). split.
      * rewrite <- Hconcat, !concat_app. simpl. by rewrite !app_nil_r.
      * apply Forall2_app; [by apply Forall2_app; [|constructor]|].
        constructor; [|constructor].
        exists (s, e, label), (s, e, label). split_and!; try done.
        by constructor.
  - assert (Hitems : items = []).
    { destruct (last items) as [x'|] eqn:Hlx; [|by apply last_None].
      by destruct (Hlast x' eq_refl) as (c & ? & _). }
    destruct (Hnil Hitems) as [-> _].
    injection Hloop as <- <-. exists [[(s, e, label)]].
    split; [by rewrite Hitems|].
    constructor; [|constructor].
    exists (s, e, label), (s, e, label). split_and!; try done. by constructor.
Qed.

(** The merger cuts the chunk sequence into consecutive runs, one per
    segment, in order: a segment starts where its run's first chunk
    starts, ends where its run's last chunk ends, and its label is the
    display label of every chunk of the run. *)
Theorem merger_runs chunk_times labels :
  ∃ segments runs,
    merger chunk_times labels = Some segments ∧
    concat runs = zip chunk_times labels ∧
    Forall2 (run_segment (label_map labels)) runs segments.
Proof.
  destruct (merge_loop_total (label_map labels) (zip chunk_times labels) ([], None))
    as [[segments current] Hloop].
  { intros [t l] Hx. simpl. apply label_map_is_Some.
    apply list_elem_of_lookup in Hx as [i Hi].
    apply lookup_zip_with_Some in Hi as (? & ? & [= <- <-] & _ & Hl).
    by eapply list_elem_of_lookup_2. }
  destruct (merge_loop_runs _ _ _ _ Hloop) as (runs & Hconcat & Hruns).
  exists (segments ++ option_list current), runs. split; [|done].
  unfold merger. rewrite Hloop. cbn [mbind option_bind].
  destruct current; [done|]. simpl. by rewrite app_nil_r.
Qed.


Lemma StronglySorted_lookup_2 {A} (R : A → A → Prop) (l : list A) :
  (∀ (i j : nat) x y, (i < j)%nat → l !! i = Some x → l !! j = Some y → R x y) →
  StronglySorted R l.
Proof.
  induction l as [|a l IH]; intros Hl; constructor.
  - apply IH. intros i j x y Hij Hi Hj. by apply (Hl (S i) (S j)); [lia|..].
  - apply Forall_forall. intros y Hy. apply list_elem_of_lookup in Hy as [j Hj].
    by apply (Hl 0%nat (S j) a y); [lia|..].
Qed.

Lemma StronglySorted_lookup_1 {A} (R : A → A → Prop) (l : list A) (i j : nat) x y :
  StronglySorted R l → (i < j)%nat → l !! i = Some x → l !! j = Some y → R x y.
Proof.
  intros Hl. revert i j. induction Hl as [|a l Hl IH Ha]; intros i j Hij Hi Hj; [done|].
  destruct j as [|j]; [lia|]. simpl in Hj. destruct i as [|i].
  - injection Hi as <-. rewrite Forall_forall in Ha. apply Ha.
    by eapply list_elem_of_lookup_2.
  - simpl in Hi. apply (IH i j); [lia|done..].
Qed.

(** The recorded time ranges of the kept chunks: each is a non-empty
    interval inside [[0, duration]], and an earlier one ends before a
    later one starts. *)
Lemma chunk_times_ordered audio duration chunks chunk_times :
  0 < SAMPLE_RATE →
  load_duration audio = Some duration →
  chunker audio duration = Some (chunks, chunk_times) →
  StronglySorted (λ a b : Q * Q, (a.2 <= b.1)%Q) chunk_times ∧
  Forall (λ a : Q * Q, (0 <= a.1)%Q ∧ (a.1 < a.2)%Q ∧ (a.2 <= duration)%Q) chunk_times.
Proof.
  intros Hsr Hdur Hchunker.
  destruct (decide (chunk_times = [])) as [->|Hne]; [split; constructor|].
  apply load_duration_sec in Hdur as [_ ->].
  destruct (kept_shape _ _ _ _ Hsr Hchunker Hne)
    as (m & M & Hcl & Hlong & Hlo & Hhi & HM & HMm & Hrange & _ & _ & ->).
  split.
  - apply StronglySorted_lookup_2. intros i j a b Hij Ha Hb.
    apply lookup_walk in Ha as [Hi ->]. apply lookup_walk in Hb as [Hj ->].
    unfold time_range. simpl. rewrite py_min_sec by done.
    apply sec_le; [done|]. nia.
  - apply Forall_forall. intros a Ha. apply list_elem_of_lookup in Ha as [k Hk].
    apply lookup_walk in Hk as [Hk ->].
    unfold time_range. simpl. rewrite py_min_sec by done. split_and!.
    + rewrite <- (sec_0 ltac:(lia)). apply sec_le; [done|]. nia.
    + apply sec_lt; [done|]. nia.
    + apply sec_le; [done|]. lia.
Qed.

Lemma run_ends {A} (R : A → A → Prop) (run : list A) a b :
  StronglySorted R run → head run = Some a → last run = Some b →
  a = b ∨ R a b.
Proof.
  intros Hrun Ha Hb. destruct run as [|a' run]; [done|]. injection Ha as ->.
  destruct run as [|c run]; [left; by injection Hb|]. right.
  apply StronglySorted_inv in Hrun as [_ Hall]. rewrite Forall_forall in Hall.
  apply Hall. rewrite last_cons_cons in Hb. by apply last_Some_elem_of.
Qed.

(** Segments built from runs of ordered items are ordered themselves. *)
Lemma runs_ordered lm (duration : Q) runs segments :
  StronglySorted (λ a b : Q * Q * Z, (a.1.2 <= b.1.1)%Q) (concat runs) →
  Forall (λ a : Q * Q * Z, (0 <= a.1.1)%Q ∧ (a.1.1 < a.1.2)%Q ∧ (a.1.2 <= duration)%Q)
         (concat runs) →
  Forall2 (run_segment lm) runs segments →
  Forall (λ seg, (0 <= seg_start seg)%Q ∧ (seg_start seg < seg_end seg)%Q ∧
                 (seg_end seg <= duration)%Q) segments ∧
  StronglySorted (λ a b, (seg_end a <= seg_start b)%Q) segments.
Proof.
  intros Hsorted Hgood Hruns. revert Hsorted Hgood.
  induction Hruns as [|run seg runs segments Hrun Hruns IH]; intros Hsorted Hgood.
  { split; constructor. }
  simpl in Hsorted, Hgood.
  apply StronglySorted_app in Hsorted as (Hcross & Hs_run & Hs_rest).
  apply Forall_app in Hgood as [Hg_run Hg_rest].
  destruct (IH Hs_rest Hg_rest) as [IHwf IHsorted].
  destruct Hrun as (f & l & Hf & Hl & Hstart & Hend & _).
  assert (Hfin : f ∈ run) by (destruct run; [done|]; injection Hf as ->; left).
  assert (Hlin : l ∈ run) by (by apply last_Some_elem_of).
  rewrite Forall_forall in Hg_run.
  destruct (Hg_run f Hfin) as (Hf0 & Hflt & _).
  destruct (Hg_run l Hlin) as (_ & Hllt & Hld).
  split; constructor; try done.
  - rewrite Hstart, Hend. split_and!; [done| |done].
    destruct (run_ends _ _ _ _ Hs_run Hf Hl) as [->|Hfl]; [done|]. simpl in Hfl.
    eapply Qlt_le_trans; [exact Hflt|]. eapply Qle_trans; [exact Hfl|].
    by apply Qlt_le_weak.
  - apply Forall_forall. intros seg' Hseg'.
    apply list_elem_of_lookup in Hseg' as [k Hk].
    destruct (Forall2_lookup_r _ _ _ _ _ Hruns Hk) as (run' & Hrun' & Hrs).
    destruct Hrs as (f' & l' & Hf' & _ & Hstart' & _).
    rewrite Hend, Hstart'. apply (Hcross l f'); [done|].
    apply list_elem_of_In, in_concat. exists run'. split.
    + apply list_elem_of_In. by eapply list_elem_of_lookup_2.
    + apply list_elem_of_In. destruct run'; [done|]. injection Hf' as ->. left.
Qed.

Lemma zip_ordered {A} (R : Q * Q → Q * Q → Prop) (P : Q * Q → Prop)
    (chunk_times : list (Q * Q)) (labels : list A) :
  StronglySorted R chunk_times → Forall P chunk_times →
  StronglySorted (λ a b : Q * Q * A, R a.1 b.1) (zip chunk_times labels) ∧
  Forall (λ a : Q * Q * A, P a.1) (zip chunk_times labels).
Proof.
  intros Hsorted Hall. split.
  - apply StronglySorted_lookup_2. intros i j [a a'] [b b'] Hij Ha Hb. simpl.
    apply lookup_zip_with_Some in Ha as (? & ? & [= <- <-] & Ha & _).
    apply lookup_zip_with_Some in Hb as (? & ? & [= <- <-] & Hb & _).
    by apply (StronglySorted_lookup_1 R chunk_times i j).
  - apply Forall_forall. intros [a a'] Ha. simpl.
    apply list_elem_of_lookup in Ha as [i Hi].
    apply lookup_zip_with_Some in Hi as (? & ? & [= <- <-] & Hi & _).
    rewrite Forall_forall in Hall. apply Hall. by eapply list_elem_of_lookup_2.
Qed.

Lemma merger_ordered audio duration chunks chunk_times labels segments :
  0 < SAMPLE_RATE →
  load_duration audio = Some duration →
  chunker audio duration = Some (chunks, chunk_times) →
  merger chunk_times labels = Some segments →
  Forall (λ seg, (0 <= seg_start seg)%Q ∧ (seg_start seg < seg_end seg)%Q ∧
                 (seg_end seg <= duration)%Q) segments ∧
  StronglySorted (λ a b, (seg_end a <= seg_start b)%Q) segments.
Proof.
  intros Hsr Hdur Hchunker Hmerger.
  destruct (chunk_times_ordered _ _ _ _ Hsr Hdur Hchunker) as [Hsorted Hgood].
  destruct (merger_runs chunk_times labels) as (segments' & runs & Hm & Hconcat & Hruns).
  rewrite Hmerger in Hm. injection Hm as <-.
  destruct (zip_ordered _ _ chunk_times labels Hsorted Hgood) as [Hzs Hzg].
  apply (runs_ordered (label_map labels) duration runs); [by rewrite Hconcat..|done].
Qed.


(** The two ways [diarize] returns. *)
Lemma diarize_cases audio segments :
  diarize audio = Some segments →
  ∃ duration chunks chunk_times,
    load_duration audio = Some duration ∧
    chunker audio duration = Some (chunks, chunk_times) ∧
    ((chunks = [] ∧ segments = [(0%Q, duration, "Speaker 1")])
     ∨ (chunks ≠ [] ∧
        merger chunk_times (cluster (encode_batch <$> chunks)).1 = Some segments)).
Proof.
  unfold diarize, diarize_traced. intros Hd.
  destruct (load_duration audio) as [duration|] eqn:Hdur; [|done].
  cbn [mbind option_bind] in Hd.
  destruct (chunker audio duration) as [[chunks chunk_times]|] eqn:Hchunker; [|done].
  cbn [mbind option_bind] in Hd.
  exists duration, chunks, chunk_times. split; [done|]. split; [done|].
  destruct chunks as [|chunk chunks].
  - left. by injection Hd as <-.
  - right. split; [done|].
    destruct (cluster (encode_batch <$> chunk :: chunks)) as [labels invoked].
    simpl. destruct (merger chunk_times labels) as [segments'|] eqn:Hm; [|done].
    simpl in Hd. by injection Hd as <-.
Qed.

Lemma diarize_ordered audio segments :
  0 < SAMPLE_RATE →
  diarize audio = Some segments →
  Forall (λ seg, (0 <= seg_start seg)%Q ∧ (seg_start seg <= seg_end seg)%Q ∧
                 (seg_end seg <= sec (len audio))%Q) segments ∧
  (audio ≠ [] → Forall (λ seg, (seg_start seg < seg_end seg)%Q) segments) ∧
  StronglySorted (λ a b, (seg_end a <= seg_start b)%Q) segments ∧
  adjacent (λ a b, seg_end a = seg_start b) segments ∧
  (∀ f, head segments = Some f → seg_start f = 0%Q).
Proof.
  intros Hsr Hd.
  destruct (diarize_cases _ _ Hd)
    as (duration & chunks & chunk_times & Hdur & Hchunker & Hcase).
  pose proof (load_duration_sec _ _ Hdur) as [_ Hduration].
  destruct Hcase as [[-> ->]|[Hne Hmerger]].
  - assert (H0 : (0 <= duration)%Q).
    { rewrite Hduration, <- (sec_0 ltac:(lia)). apply sec_le; [done|apply len_nonneg]. }
    split_and!.
    + constructor; [|constructor]. unfold seg_start, seg_end. simpl.
      split_and!; [done|done|]. rewrite Hduration. apply Qle_refl.
    + intros Haudio. constructor; [|constructor]. unfold seg_start, seg_end. simpl.
      rewrite Hduration, <- (sec_0 ltac:(lia)). apply sec_lt; [done|].
      unfold len. destruct audio; [done|]. simpl. lia.
    + repeat constructor.
    + apply adjacent_singleton.
    + by intros f [= <-].
  - destruct (merger_ordered _ _ _ _ _ _ Hsr Hdur Hchunker Hmerger) as [Hwf Hsorted].
    destruct (merger_spec chunk_times (cluster (encode_batch <$> chunks)).1)
      as (segments' & Hm & _ & Hhead & Hle & _ & _ & Hcont).
    rewrite Hmerger in Hm. injection Hm as <-.
    split_and!.
    + eapply Forall_impl; [exact Hwf|]. intros seg (H0 & Hlt & Hd'). simpl.
      split_and!; [done|by apply Qlt_le_weak|by rewrite <- Hduration].
    + intros _. eapply Forall_impl; [exact Hwf|]. by intros seg (_ & Hlt & _).
    + done.
    + apply Hcont. intros i a b Ha Hb.
      by apply (chunk_times_gapless _ _ _ _ Hsr Hdur Hchunker i a b).
    + intros f Hf.
      assert (Hne_t : chunk_times ≠ []).
      { intros ->. by destruct segments. }
      destruct (chunk_times_head _ _ _ _ Hsr Hchunker Hne_t) as [e He].
      destruct chunk_times as [|c chunk_times]; [done|]. injection He as ->.
      destruct (cluster (encode_batch <$> chunks)).1 as [|l0 labels].
      { by destruct segments. }
      destruct (Hhead _ eq_refl) as (f' & Hf' & Hfs). simpl in Hfs.
      rewrite Hf in Hf'. by injection Hf' as <-.
Qed.

(** Whatever the clusterer answers, the segments [diarize] returns lie
    inside [[0, duration]], are in time order without overlap and without
    gap, start at 0, and are non-empty intervals unless the buffer itself
    is empty. *)
Theorem diarize_segments_well_formed audio segments :
  0 < SAMPLE_RATE →
  diarize audio = Some segments →
  ∃ duration,
    load_duration audio = Some duration ∧
    Forall (λ seg, (0 <= seg_start seg)%Q ∧ (seg_start seg <= seg_end seg)%Q ∧
                   (seg_end seg <= duration)%Q) segments ∧
    (audio ≠ [] → Forall (λ seg, (seg_start seg < seg_end seg)%Q) segments) ∧
    StronglySorted (λ a b, (seg_end a <= seg_start b)%Q) segments ∧
    adjacent (λ a b, seg_end a = seg_start b) segments ∧
    (∀ f, head segments = Some f → seg_start f = 0%Q).
Proof.
  intros Hsr Hd. exists (sec (len audio)). split.
  - unfold load_duration. by rewrite truediv_Some by lia.
  - by apply diarize_ordered.
Qed.

(** ** [get_speaker_count] *)

Lemma size_list_to_set_le (l : list string) :
  (size (list_to_set l : gset string) ≤ length l)%nat.
Proof.
  apply submseteq_length, NoDup_submseteq; [apply NoDup_elements|].
  intros x. by rewrite elem_of_elements, elem_of_list_to_set.
Qed.

(** The speaker count lies between 0 and the number of segments, and is 0
    for the empty list only. *)
Theorem get_speaker_count_bounds segments :
  0 ≤ get_speaker_count segments ≤ len segments ∧
  (get_speaker_count segments = 0 ↔ segments = []).
Proof.
  unfold get_speaker_count, len. split.
  - split; [lia|]. pose proof (size_list_to_set_le (seg_label <$> segments)) as Hle.
    rewrite length_fmap in Hle. lia.
  - split.
    + intros H0. assert (Hs : size (list_to_set (seg_label <$> segments) : gset string) = 0%nat) by lia.
      apply size_empty_inv in Hs. destruct segments as [|seg segments]; [done|].
      exfalso. apply (not_elem_of_empty (C:=gset string) (seg_label seg)).
      rewrite <- Hs. apply elem_of_list_to_set. left.
    + by intros ->.
Qed.

(** The display labels in use: one per distinct raw label. *)
Lemma label_map_image labels x :
  (∃ l, l ∈ labels ∧ label_map labels !! l = Some x)
  ↔ x ∈ imap (λ (k : nat) (_ : Z), "Speaker " +:+ pretty (Z.of_nat k + 1))
           (unique_labels labels).
Proof.
  split.
  - intros (l & Hl & Hx).
    apply unique_labels_elem, list_elem_of_lookup in Hl as [k Hk].
    rewrite (label_map_lookup _ _ _ Hk) in Hx. injection Hx as <-.
    apply (elem_of_lookup_imap_2
             (λ (k : nat) (_ : Z), "Speaker " +:+ pretty (Z.of_nat k + 1)) _ _ _ Hk).
  - intros Hx. apply elem_of_lookup_imap_1 in Hx as (k & l & -> & Hk).
    exists l. split.
    + apply unique_labels_elem. by eapply list_elem_of_lookup_2.
    + by apply label_map_lookup.
Qed.

Lemma display_labels_NoDup (us : list Z) :
  NoDup (imap (λ (k : nat) (_ : Z), "Speaker " +:+ pretty (Z.of_nat k + 1)) us).
Proof.
  apply NoDup_alt. intros i j x Hi Hj.
  apply list_lookup_imap_Some in Hi as (? & _ & ->).
  apply list_lookup_imap_Some in Hj as (? & _ & Heq).
  apply (inj (String.append "Speaker ")) in Heq.
  apply (inj pretty) in Heq. lia.
Qed.

(** When no cluster label is left over (no more labels than chunks), the
    speaker count of the merged segments is the number of distinct raw
    cluster labels. *)
Theorem get_speaker_count_merger chunk_times labels :
  (length labels ≤ length chunk_times)%nat →
  ∃ segments,
    merger chunk_times labels = Some segments ∧
    get_speaker_count segments = Z.of_nat (size (list_to_set labels : gset Z)).
Proof.
  intros Hlen.
  destruct (merger_runs chunk_times labels) as (segments & runs & Hmerger & Hconcat & Hruns).
  destruct (merger_spec chunk_times labels) as (segments' & Hm & _ & _ & _ & _ & Hlab & _).
  rewrite Hmerger in Hm. injection Hm as <-.
  exists segments. split; [done|]. unfold get_speaker_count. f_equal.
  assert (Hset : (list_to_set (seg_label <$> segments) : gset string)
                 = list_to_set (imap (λ (k : nat) (_ : Z),
                                        "Speaker " +:+ pretty (Z.of_nat k + 1))
                                     (unique_labels labels))).
  { apply set_eq. intros x. rewrite !elem_of_list_to_set, <- label_map_image. split.
    - intros Hx. apply list_elem_of_fmap in Hx as (seg & -> & Hseg).
      destruct (Hlab seg Hseg) as ([t l] & Hitem & Hl). exists l. split; [|done].
      apply list_elem_of_lookup in Hitem as [i Hi].
      apply lookup_zip_with_Some in Hi as (? & ? & [= <- <-] & _ & Hi).
      by eapply list_elem_of_lookup_2.
    - intros (l & Hl & Hx). apply list_elem_of_lookup in Hl as [i Hi].
      destruct (lookup_lt_is_Some_2 chunk_times i) as [t Ht].
      { apply lookup_lt_Some in Hi. lia. }
      assert (Hitem : (t, l) ∈ concat runs).
      { rewrite Hconcat. apply list_elem_of_lookup. exists i.
        apply lookup_zip_with_Some. by exists t, l. }
      apply list_elem_of_In, in_concat in Hitem as (run & Hrun & Hin).
      apply list_elem_of_In, list_elem_of_lookup in Hrun as [k Hk].
      destruct (Forall2_lookup_l _ _ _ _ _ Hruns Hk) as (seg & Hseg & Hrs).
      destruct Hrs as (_ & _ & _ & _ & _ & _ & Hall).
      rewrite Forall_forall in Hall. apply list_elem_of_In in Hin.
      specialize (Hall _ Hin). simpl in Hall. rewrite Hx in Hall. injection Hall as ->.
      apply list_elem_of_fmap. exists seg. split; [done|].
      by eapply list_elem_of_lookup_2. }
  rewrite Hset, size_list_to_set by apply display_labels_NoDup.
  rewrite length_imap. unfold unique_labels.
  by rewrite merge_sort_Permutation.
Qed.


(** Two raw labels of a run that differ get display labels that differ:
    comparing display labels, as the merge loop does, is comparing raw
    cluster labels. *)
Theorem label_map_injective labels l1 l2 :
  l1 ∈ labels → l2 ∈ labels →
  label_map labels !! l1 = label_map labels !! l2 → l1 = l2.
Proof.
  intros H1 H2 Heq.
  apply unique_labels_elem, list_elem_of_lookup in H1 as [k1 Hk1].
  apply unique_labels_elem, list_elem_of_lookup in H2 as [k2 Hk2].
  rewrite (label_map_lookup _ _ _ Hk1), (label_map_lookup _ _ _ Hk2) in Heq.
  apply (inj Some) in Heq. apply (inj (String.append "Speaker ")) in Heq.
  apply (inj pretty) in Heq. assert (k1 = k2) as -> by lia.
  rewrite Hk1 in Hk2. by injection Hk2.
Qed.

End diarizer.

(** ** The theorems at concrete inputs

    One sample per second and three-second chunks keep the buffers
    small; the last statement uses the constants of [config.py]. *)

Lemma chunker_length_invariant_witness :
  0 < 1 ∧
  load_duration 1 [1; 2; 3; 4; 5; 6; 7; 8]%Q = Some 8%Q ∧
  chunker 1 3 [1; 2; 3; 4; 5; 6; 7; 8]%Q 8
  = Some ([[1; 2; 3]; [4; 5; 6]; [7; 8; 0]]%Q, [(0, 3); (3, 6); (6, 8)]%Q) ∧
  ∃ indices,
    range 0 (len [1; 2; 3; 4; 5; 6; 7; 8]%Q) (chunk_length 1 3) = Some indices ∧
    length [[1; 2; 3]; [4; 5; 6]; [7; 8; 0]]%Q
    = length (filter (viable 1 3 [1; 2; 3; 4; 5; 6; 7; 8]%Q) indices).
Proof.
  split; [reflexivity|]. split; [reflexivity|]. split; [reflexivity|].
  destruct (chunker_length_invariant 1 3 [1; 2; 3; 4; 5; 6; 7; 8]%Q 8
              [[1; 2; 3]; [4; 5; 6]; [7; 8; 0]]%Q [(0, 3); (3, 6); (6, 8)]%Q)
    as (indices & Hrange & Hlen & _); [reflexivity..|].
  exists indices. split; assumption.
Defined.

Lemma chunker_coverage_witness :
  0 < 1 ∧
  load_duration 1 [1; 2; 3; 4; 5; 6; 7]%Q = Some 7%Q ∧
  chunker 1 3 [1; 2; 3; 4; 5; 6; 7]%Q 7
  = Some ([[1; 2; 3]; [4; 5; 6]]%Q, [(0, 3); (3, 6)]%Q) ∧
  [(0, 3); (3, 6)]%Q ≠ [] ∧
  adjacent (λ a b : Q * Q, (a.1 <= b.1)%Q ∧ a.2 = b.1) [(0, 3); (3, 6)]%Q.
Proof.
  split; [reflexivity|]. split; [reflexivity|]. split; [reflexivity|].
  split; [discriminate|].
  apply (chunker_coverage 1 3 [1; 2; 3; 4; 5; 6; 7]%Q 7
           [[1; 2; 3]; [4; 5; 6]]%Q [(0, 3); (3, 6)]%Q);
    [reflexivity..|discriminate].
Defined.

Lemma label_map_sorted_enumeration_witness :
  [5; 2; 5; 9] ≠ [] ∧ label_map [5; 2; 5; 9] !! 2 = Some "Speaker 1".
Proof.
  split; [discriminate|].
  destruct (label_map_sorted_enumeration [5; 2; 5; 9])
    as (us & _ & _ & _ & _ & Hmin & _); [discriminate|].
  apply Hmin.
  - apply list_elem_of_further, list_elem_of_here.
  - intros x Hx. repeat (apply elem_of_cons in Hx as [->|Hx]); try lia.
    by apply elem_of_nil in Hx.
Defined.

Lemma label_map_first_seen_ascending_witness :
  StronglySorted Z.lt (first_seen [0; 1; 0; 1]) ∧ first_seen_numbering [0; 1; 0; 1].
Proof.
  assert (Hsorted : StronglySorted Z.lt (first_seen [0; 1; 0; 1])).
  { change (StronglySorted Z.lt [0; 1]). repeat constructor. }
  split; [exact Hsorted|].
  exact (proj2 (proj1 (label_map_first_seen_ascending _)) Hsorted).
Defined.

Lemma merger_contiguity_witness :
  0 < 1 ∧
  load_duration 1 [1; 2; 3; 4; 5; 6; 7; 8]%Q = Some 8%Q ∧
  chunker 1 3 [1; 2; 3; 4; 5; 6; 7; 8]%Q 8
  = Some ([[1; 2; 3]; [4; 5; 6]; [7; 8; 0]]%Q, [(0, 3); (3, 6); (6, 8)]%Q) ∧
  length [1; 0; 0] = length [(0, 3); (3, 6); (6, 8)]%Q ∧
  ∃ segments,
    merger [(0, 3); (3, 6); (6, 8)]%Q [1; 0; 0] = Some segments ∧
    adjacent (λ a b, seg_end a = seg_start b) segments.
Proof.
  split; [reflexivity|]. split; [reflexivity|]. split; [reflexivity|].
  split; [reflexivity|].
  destruct (merger_contiguity 1 3 [1; 2; 3; 4; 5; 6; 7; 8]%Q 8
              [[1; 2; 3]; [4; 5; 6]; [7; 8; 0]]%Q [(0, 3); (3, 6); (6, 8)]%Q [1; 0; 0])
    as (segments & Hmerger & _ & _ & Hcont & _); [reflexivity..|].
  exists segments. split; assumption.
Defined.

Lemma diarize_single_chunk_witness :
  load_duration 1 [1; 2; 3]%Q = Some 3%Q ∧
  chunker 1 3 [1; 2; 3]%Q 3 = Some ([[1; 2; 3]]%Q, [(0, 3)]%Q) ∧
  length [[1; 2; 3]]%Q = 1%nat ∧
  diarize_traced 1 3 unit (λ _, tt) (λ _, None) [1; 2; 3]%Q
  = Some ([(0%Q, 3%Q, "Speaker 1")], false).
Proof.
  split; [reflexivity|]. split; [reflexivity|]. split; [reflexivity|].
  destruct (diarize_single_chunk 1 3 unit (λ _, tt) (λ _, None) [1; 2; 3]%Q 3
              [[1; 2; 3]]%Q [(0, 3)]%Q)
    as (start_sec & end_sec & Htimes & _ & Hdiarize); [reflexivity..|].
  injection Htimes as <- <-. exact Hdiarize.
Defined.

Lemma diarize_clustering_failure_witness :
  load_duration 1 [1; 2; 3; 4; 5; 6; 7; 8]%Q = Some 8%Q ∧
  chunker 1 3 [1; 2; 3; 4; 5; 6; 7; 8]%Q 8
  = Some ([[1; 2; 3]; [4; 5; 6]; [7; 8; 0]]%Q, [(0, 3); (3, 6); (6, 8)]%Q) ∧
  (2 ≤ length [[1; 2; 3]; [4; 5; 6]; [7; 8; 0]]%Q)%nat ∧
  (λ _ : list unit, @None (list Z))
    ((λ _, tt) <$> [[1; 2; 3]; [4; 5; 6]; [7; 8; 0]]%Q) = None ∧
  diarize 1 3 unit (λ _, tt) (λ _, None) [1; 2; 3; 4; 5; 6; 7; 8]%Q
  = Some [(0%Q, 8%Q, "Speaker 1")].
Proof.
  split; [reflexivity|]. split; [reflexivity|]. split; [simpl; lia|].
  split; [reflexivity|].
  destruct (diarize_clustering_failure 1 3 unit (λ _, tt) (λ _, None)
              [1; 2; 3; 4; 5; 6; 7; 8]%Q 8
              [[1; 2; 3]; [4; 5; 6]; [7; 8; 0]]%Q [(0, 3); (3, 6); (6, 8)]%Q)
    as (_ & fs & fe & ls & le & Hhead & Hlast & Hdiarize);
    [reflexivity|reflexivity|simpl; lia|reflexivity|].
  injection Hhead as <- <-. injection Hlast as <- <-. exact Hdiarize.
Defined.

Lemma diarize_starts_at_zero_witness :
  0 < 1 ∧
  load_duration 1 [1; 2; 3; 4; 5; 6; 7]%Q = Some 7%Q ∧
  chunker 1 3 [1; 2; 3; 4; 5; 6; 7]%Q 7
  = Some ([[1; 2; 3]; [4; 5; 6]]%Q, [(0, 3); (3, 6)]%Q) ∧
  [[1; 2; 3]; [4; 5; 6]]%Q ≠ [] ∧
  ∃ segments,
    diarize 1 3 unit (λ _, tt) (λ es, Some (imap (λ (i : nat) _, 1 - Z.of_nat i) es))
      [1; 2; 3; 4; 5; 6; 7]%Q = Some segments ∧
    ∀ first, head segments = Some first → seg_start first = 0%Q.
Proof.
  split; [reflexivity|]. split; [reflexivity|]. split; [reflexivity|].
  split; [discriminate|].
  destruct (diarize_starts_at_zero 1 3 unit (λ _, tt)
              (λ es, Some (imap (λ (i : nat) _, 1 - Z.of_nat i) es))
              [1; 2; 3; 4; 5; 6; 7]%Q 7 [[1; 2; 3]; [4; 5; 6]]%Q [(0, 3); (3, 6)]%Q)
    as (_ & _ & segments & Hdiarize & Hfirst & _);
    [reflexivity|reflexivity|reflexivity|discriminate|].
  exists segments. split; assumption.
Defined.

Lemma diarize_loaded_raises_iff_witness :
  0 < 1 ∧
  diarize 1 0 unit (λ _, tt) (λ _, None) [1; 2; 3; 4; 5; 6; 7]%Q = None ∧
  diarize 1 3 unit (λ _, tt) (λ es, Some (imap (λ (i : nat) _, 1 - Z.of_nat i) es))
    [1; 2; 3; 4; 5; 6; 7]%Q
  = Some [(0%Q, 3%Q, "Speaker 2"); (3%Q, 6%Q, "Speaker 1")].
Proof.
  split; [reflexivity|]. split; [|reflexivity].
  apply (diarize_loaded_raises_iff 1 0 unit (λ _, tt) (λ _, None)
           [1; 2; 3; 4; 5; 6; 7]%Q); reflexivity.
Defined.

Lemma diarize_too_short_witness :
  0 < config.SAMPLE_RATE ∧ config.CHUNK_DURATION_SEC ≠ 0 ∧
  len (replicate (Z.to_nat config.SAMPLE_RATE) 0%Q) = config.SAMPLE_RATE ∧
  diarize config.SAMPLE_RATE config.CHUNK_DURATION_SEC unit (λ _, tt) (λ _, None)
    (replicate (Z.to_nat config.SAMPLE_RATE) 0%Q)
  = Some [(0%Q, 1%Q, "Speaker 1")].
Proof.
  assert (Hlen : len (replicate (Z.to_nat config.SAMPLE_RATE) 0%Q) = config.SAMPLE_RATE).
  { unfold len. rewrite length_replicate. reflexivity. }
  split; [reflexivity|]. split; [discriminate|]. split; [exact Hlen|].
  apply (diarize_too_short config.SAMPLE_RATE config.CHUNK_DURATION_SEC unit
           (λ _, tt) (λ _, None)); [reflexivity|discriminate|exact Hlen].
Defined.

(** ** The aligner *)

Section aligner.
Import main.

Lemma contains_test spk_start spk_end spk_label t :
  float_le spk_start t && float_lt t spk_end = true
  ↔ contains (spk_start, spk_end, spk_label) t.
Proof.
  unfold contains. simpl.
  rewrite andb_true_iff, float_le_spec, float_lt_spec. tauto.
Qed.

Lemma assign_loop_fmap segs result spans :
  assign_loop segs result spans = result ++ (assign_one segs <$> spans).
Proof.
  revert result. induction spans as [|t spans IH]; intros result; simpl.
  - by rewrite app_nil_r.
  - rewrite IH. by rewrite <- app_assoc.
Qed.

Lemma assign_speakers_fmap spans segs :
  _assign_speakers spans segs = assign_one segs <$> spans.
Proof. unfold _assign_speakers. by rewrite assign_loop_fmap. Qed.

(** What the inner scan returns: the label of the first containing
    segment, or the initial value when there is none. *)
Lemma scan_speaker_segments_spec t speaker segs :
  (∃ seg, first_containing segs t seg ∧
          scan_speaker_segments t speaker segs = seg_label seg)
  ∨ (none_containing segs t ∧ scan_speaker_segments t speaker segs = speaker).
Proof.
  induction segs as [|[[s e] l] segs IH]; simpl.
  - right. split; [|done]. intros seg Hin. by apply elem_of_nil in Hin.
  - destruct (float_le s t && float_lt t e) eqn:Htest.
    + left. exists (s, e, l). split; [|done].
      exists 0%nat. split; [done|]. split; [by apply contains_test|]. lia.
    + assert (Hnot : ¬ contains (s, e, l) t).
      { intros Hc. apply contains_test in Hc. congruence. }
      destruct IH as [(seg & (j & Hj & Hc & Hfirst) & Hres)|[Hnone Hres]].
      * left. exists seg. split; [|done].
        exists (S j). split; [done|]. split; [done|].
        intros [|j'] seg' Hlt Hj'; simpl in Hj'.
        -- by inversion Hj'; subst.
        -- apply (Hfirst j'); [lia|done].
      * right. split; [|done].
        intros seg Hin. apply elem_of_cons in Hin as [->|Hin]; [done|by apply Hnone].
Qed.

Lemma first_containing_elem segs t seg :
  first_containing segs t seg → seg ∈ segs ∧ contains seg t.
Proof.
  intros (j & Hj & Hc & _). split; [|done]. by eapply list_elem_of_lookup_2.
Qed.

(** The aligner's rule, for any labels whatever.  The aligner returns
    one record per span, in the order of the spans, each with its span's
    start, end and text; the speaker is the label of the first segment
    whose [[start, end)] contains the span's start, and ["Unknown"] when
    no segment does; a speaker ["Unknown"] means that no segment contains
    the span's start provided no segment is itself labelled ["Unknown"];
    and the speakers depend on the spans through their starts only. *)
Lemma assign_speakers_alignment spans segs :
  aligned (λ t speaker,
             assigned segs t speaker ∧
             (none_containing segs t → speaker = "Unknown") ∧
             ((∀ seg, seg ∈ segs → seg_label seg ≠ "Unknown") →
              speaker = "Unknown" → none_containing segs t))
          spans (_assign_speakers spans segs) ∧
  ∀ spans',
    ts_start <$> spans' = ts_start <$> spans →
    ar_speaker <$> _assign_speakers spans' segs
    = ar_speaker <$> _assign_speakers spans segs.
Proof.
  split.
  - rewrite assign_speakers_fmap. split; [by rewrite length_fmap|].
    intros i t Hi. exists (assign_one segs t).
    rewrite list_lookup_fmap, Hi. split; [done|]. do 3 (split; [done|]).
    unfold assign_one, assigned. simpl.
    destruct (scan_speaker_segments_spec (ts_start t) "Unknown" segs)
      as [(seg & Hfirst & ->)|[Hnone ->]].
    + apply first_containing_elem in Hfirst as Hseg. destruct Hseg as [Hin Hc].
      split; [left; by exists seg|]. split.
      * intros Hnone. by destruct (Hnone seg Hin).
      * intros Hlabels Hunknown. by destruct (Hlabels seg Hin).
    + split; [by right|]. done.
  - intros spans' Hstarts. rewrite !assign_speakers_fmap, <- !list_fmap_compose.
    change (ar_speaker ∘ assign_one segs)
      with ((λ t, scan_speaker_segments t "Unknown" segs) ∘ ts_start).
    by rewrite !list_fmap_compose, Hstarts.
Qed.

(** A display label ["Speaker n"] is never the label ["Unknown"]. *)
Lemma speaker_label_not_unknown (n : Z) : "Speaker " +:+ pretty n ≠ "Unknown".
Proof. done. Qed.

(** C1.  For every list of transcription spans and every list of speaker
    segments (labelled ["Speaker n"] by the diarizer and by the fallback
    of the caller, so never ["Unknown"]), the aligner returns one record
    per span, in the order of the spans, each with its span's start, end
    and text; the speaker is the label of the first segment whose
    [[start, end)] contains the span's start; it is ["Unknown"] if and
    only if no segment contains the span's start; and the span's end plays
    no part in the choice. *)
Theorem assign_speakers_totality spans segs :
  (∀ seg, seg ∈ segs → seg_label seg ≠ "Unknown") →
  alignment_totality spans segs ∧
  ∀ spans',
    ts_start <$> spans' = ts_start <$> spans →
    ar_speaker <$> _assign_speakers spans' segs
    = ar_speaker <$> _assign_speakers spans segs.
Proof.
  intros Hlabels. destruct (assign_speakers_alignment spans segs) as [[Hlen Hrec] Hends].
  split; [|exact Hends]. split; [exact Hlen|].
  intros i t Hi. destruct (Hrec i t Hi) as (r & Hr & Hs & He & Ht & Hassigned & Hnone & Hunknown).
  exists r. do 5 (split; [done|]). split; [by apply Hunknown|exact Hnone].
Qed.

(** The proviso on the labels is what the segment type of the program
    provides: were a segment itself labelled ["Unknown"], a span inside it
    would get the speaker ["Unknown"] although a segment contains its
    start. *)
Lemma alignment_totality_labels_needed :
  ¬ alignment_totality [mkTranscriptionSegment 1 2 "hi"] [(0%Q, 5%Q, "Unknown")].
Proof.
  intros [_ Hrec].
  destruct (Hrec 0%nat _ eq_refl) as (r & [= <-] & _ & _ & _ & _ & Hiff).
  simpl in Hiff. destruct Hiff as [Hnone _].
  apply (Hnone eq_refl (0%Q, 5%Q, "Unknown")); [apply list_elem_of_here|].
  split; simpl; [by apply (Qle_bool_imp_le 0 1)|reflexivity].
Qed.

(** The end-to-end scenario of the specification. *)
Example end_to_end_scenario :
  _assign_speakers
    [mkTranscriptionSegment 0 4 "hello"; mkTranscriptionSegment 6 10 "world";
     mkTranscriptionSegment 20 22 "late"]
    [(0%Q, 5%Q, "Speaker 1"); (5%Q, 12%Q, "Speaker 2")]
  = [mkAlignedRecord "Speaker 1" 0 4 "hello"; mkAlignedRecord "Speaker 2" 6 10 "world";
     mkAlignedRecord "Unknown" 20 22 "late"].
Proof. reflexivity. Qed.

Lemma assign_speakers_totality_witness :
  (∀ seg, seg ∈ [(0%Q, 5%Q, "Speaker 1"); (5%Q, 12%Q, "Speaker 2")] →
          seg_label seg ≠ "Unknown") ∧
  alignment_totality
    [mkTranscriptionSegment 0 4 "hello"; mkTranscriptionSegment 6 10 "world";
     mkTranscriptionSegment 20 22 "late"]
    [(0%Q, 5%Q, "Speaker 1"); (5%Q, 12%Q, "Speaker 2")].
Proof.
  assert (Hlabels : ∀ seg, seg ∈ [(0%Q, 5%Q, "Speaker 1"); (5%Q, 12%Q, "Speaker 2")] →
                           seg_label seg ≠ "Unknown").
  { intros seg Hin. set_unfold in Hin. by destruct Hin as [->|[->|[]]]. }
  split; [exact Hlabels|]. exact (proj1 (assign_speakers_totality _ _ Hlabels)).
Defined.

End aligner.

(** ** [Transcriber] *)

Section transcriber_properties.
Import transcriber.

Variable strip : string → string.

Lemma transcribe_loop_spec result segments :
  transcribe_loop strip result segments
  = result ++
    ((λ segment, mkTranscriptionSegment (ts_start segment) (ts_end segment)
                   (strip (ts_text segment)))
       <$> filter (λ segment, strip (ts_text segment) ≠ "") segments).
Proof.
  revert result. induction segments as [|segment segments IH]; intros result.
  - simpl. by rewrite app_nil_r.
  - cbn [transcribe_loop]. rewrite filter_cons.
    destruct (decide (strip (ts_text segment) = "")) as [Hempty|Hfull].
    + rewrite IH. by destruct (decide (strip (ts_text segment) ≠ "")).
    + rewrite IH. destruct (decide (strip (ts_text segment) ≠ "")); [|done].
      by rewrite fmap_cons, <- app_assoc.
Qed.

(** [transcribe] never returns a segment with an empty text; what it
    returns are the segments of the model whose stripped text is not
    empty, in their order, with their timestamps and the stripped text. *)
Theorem transcribe_nonempty_in_order segments :
  Forall (λ t, ts_text t ≠ "") (transcribe strip segments) ∧
  (λ t, (ts_start t, ts_end t)) <$> transcribe strip segments
    `sublist_of` (λ t, (ts_start t, ts_end t)) <$> segments ∧
  ∀ t, t ∈ transcribe strip segments ↔
       ∃ segment, segment ∈ segments ∧ strip (ts_text segment) ≠ "" ∧
                  t = mkTranscriptionSegment (ts_start segment) (ts_end segment)
                        (strip (ts_text segment)).
Proof.
  unfold transcribe. rewrite transcribe_loop_spec. cbn [app]. split_and!.
  - apply Forall_fmap, Forall_forall. intros segment Hin.
    by apply list_elem_of_filter in Hin as [Hne _].
  - rewrite <- list_fmap_compose.
    rewrite (list_fmap_ext _ (λ t, (ts_start t, ts_end t))
               (filter (λ segment, strip (ts_text segment) ≠ "") segments))
      by done.
    apply fmap_sublist, sublist_filter.
  - intros t. rewrite list_elem_of_fmap. split.
    + intros (segment & -> & Hin). apply list_elem_of_filter in Hin as [Hne Hin].
      by exists segment.
    + intros (segment & Hin & Hne & ->). exists segment. split; [done|].
      by apply list_elem_of_filter.
Qed.

(** Transcribing what [transcribe] returned changes nothing, because
    stripping a stripped text changes nothing. *)
Theorem transcribe_idempotent segments :
  (∀ s, strip (strip s) = strip s) →
  transcribe strip (transcribe strip segments) = transcribe strip segments.
Proof.
  intros Hstrip. unfold transcribe. rewrite !transcribe_loop_spec. cbn [app].
  induction segments as [|segment segments IH]; [done|].
  rewrite filter_cons.
  destruct (decide (strip (ts_text segment) ≠ "")) as [Hne|]; [|done].
  rewrite fmap_cons, filter_cons. cbn [ts_text ts_start ts_end].
  rewrite Hstrip. destruct (decide (strip (ts_text segment) ≠ "")); [|done].
  rewrite fmap_cons. cbn [ts_text ts_start ts_end]. by rewrite Hstrip, IH.
Qed.

Lemma get_duration_loop_last last_end segments :
  get_duration_loop last_end segments
  = default last_end (ts_end <$> last segments).
Proof.
  revert last_end. induction segments as [|segment segments IH]; intros last_end; [done|].
  cbn [get_duration_loop]. rewrite IH. destruct segments as [|s l]; [done|].
  rewrite last_cons_cons. destruct (last (s :: l)) eqn:Hlast; [done|].
  by apply last_None in Hlast.
Qed.

(** [get_duration] is the end of the last segment the model yields (not
    the length of the audio file), and 0 when the model yields none; the
    segments before the last play no part. *)
Theorem transcriber_get_duration_last segments :
  get_duration segments = default 0%Q (ts_end <$> last segments) ∧
  ∀ earlier segment, get_duration (earlier ++ [segment]) = ts_end segment.
Proof.
  unfold get_duration. split; [apply get_duration_loop_last|].
  intros earlier segment. by rewrite get_duration_loop_last, last_snoc.
Qed.

End transcriber_properties.

Lemma transcribe_idempotent_witness :
  (∀ s, (λ s : string, if decide (s = " ") then "" else s)
          ((λ s : string, if decide (s = " ") then "" else s) s)
        = (λ s : string, if decide (s = " ") then "" else s) s) ∧
  transcriber.transcribe (λ s : string, if decide (s = " ") then "" else s)
    (transcriber.transcribe (λ s : string, if decide (s = " ") then "" else s)
       [mkTranscriptionSegment 0 1 " "; mkTranscriptionSegment 1 2 "a"])
  = [mkTranscriptionSegment 1 2 "a"].
Proof.
  assert (Hstrip : ∀ s, (λ s : string, if decide (s = " ") then "" else s)
          ((λ s : string, if decide (s = " ") then "" else s) s)
        = (λ s : string, if decide (s = " ") then "" else s) s).
  { intros s. simpl. destruct (decide (s = " ")) as [->|Hs]; [done|].
    by destruct (decide (s = " ")). }
  split; [exact Hstrip|].
  rewrite (transcribe_idempotent _ _ Hstrip). reflexivity.
Defined.

(** ** [Recorder] *)

Section recorder_properties.
Import recorder.

Variables SAMPLE_RATE CHANNELS : Z.
Variable TEMP_AUDIO_PATH : string.
Variable to_int16 : Q → Z.

Local Abbreviation start := (start SAMPLE_RATE CHANNELS).
Local Abbreviation stop := (stop SAMPLE_RATE TEMP_AUDIO_PATH to_int16).
Local Abbreviation get_duration := (get_duration SAMPLE_RATE).

Lemma callbacks_spec blocks self :
  foldl (λ r block, _callback block r) self blocks
  = {| is_recording := is_recording self;
       _audio_data := _audio_data self ++ blocks;
       _stream := _stream self |}.
Proof.
  revert self. induction blocks as [|block blocks IH]; intros self.
  - simpl. rewrite app_nil_r. by destruct self.
  - cbn [foldl]. rewrite IH. simpl. by rewrite <- app_assoc.
Qed.

(** A recording session: started on an idle recorder with a working
    device, fed any blocks (at least one), then stopped, the recorder
    writes to the temporary path, at the configured rate, the converted
    samples of exactly those blocks in the order they came; whatever was
    recorded before is gone; and the recorder is idle again. *)
Theorem recorder_session self blocks :
  is_recording self = false →
  blocks ≠ [] →
  stop (foldl (λ r block, _callback block r) (start DeviceOk self).1 blocks)
  = ({| is_recording := false; _audio_data := blocks; _stream := None |},
     Returned (mkWavFile TEMP_AUDIO_PATH SAMPLE_RATE (to_int16 <$> concat blocks))).
Proof.
  intros Hidle Hblocks. unfold recorder.start. rewrite Hidle. cbn [fst].
  rewrite callbacks_spec. unfold recorder.stop. cbn.
  by destruct blocks.
Qed.

(** Stopping a session in which no block arrived raises "no recorded
    data", but only after the stream was closed: the recorder is left
    idle, and stopping again raises "recording not started". *)
Theorem recorder_stop_without_data self :
  is_recording self = false →
  ∃ stopped,
    stop (start DeviceOk self).1 = (stopped, Raised "録音データがありません") ∧
    is_recording stopped = false ∧ _stream stopped = None ∧
    stop stopped = (stopped, Raised "録音が開始されていません").
Proof.
  intros Hidle. unfold recorder.start. rewrite Hidle. cbn [fst].
  eexists. split; [reflexivity|]. done.
Qed.

(** A recorder that is recording has a stream, whatever sequence of
    calls led to it and however the device behaved; and after [stop], it
    is not recording, whether [stop] returned or raised. *)
Theorem recorder_stream_invariant self :
  (is_recording self = true → _stream self ≠ None) →
  (∀ dev, is_recording (start dev self).1 = true → _stream (start dev self).1 ≠ None) ∧
  (∀ block, is_recording (_callback block self) = true →
            _stream (_callback block self) ≠ None) ∧
  is_recording (stop self).1 = false.
Proof.
  intros Hinv. split_and!.
  - intros dev. unfold recorder.start.
    destruct (is_recording self) eqn:Hrec; [by intros _; apply Hinv|].
    by destruct dev.
  - done.
  - unfold recorder.stop. destruct (is_recording self) eqn:Hrec; [|done].
    cbn [negb orb]. destruct (_stream self) as [stream|] eqn:Hstream.
    + rewrite bool_decide_eq_false_2 by done. by destruct (_audio_data self).
    + by destruct (Hinv eq_refl).
Qed.

Lemma foldl_add_len {A} (blocks : list (list A)) (acc : Z) :
  foldl Z.add acc (len <$> blocks) = acc + len (concat blocks).
Proof.
  revert acc. induction blocks as [|block blocks IH]; intros acc.
  - simpl. unfold len. simpl. lia.
  - cbn [fmap list_fmap foldl concat]. rewrite IH, len_app. lia.
Qed.

(** [get_duration] is the duration [diarize] computes for the recorded
    buffer, the blocks put end to end; it raises only for a sample rate
    of zero, and then only if some block was recorded. *)
Theorem recorder_get_duration self :
  (SAMPLE_RATE ≠ 0 →
   get_duration self = load_duration SAMPLE_RATE (concat (_audio_data self))) ∧
  (get_duration self = None ↔ SAMPLE_RATE = 0 ∧ _audio_data self ≠ []).
Proof.
  unfold recorder.get_duration, load_duration. split.
  - intros Hsr. destruct (_audio_data self) as [|block blocks] eqn:Hdata.
    + rewrite truediv_Some by done. reflexivity.
    + by rewrite foldl_add_len, Z.add_0_l.
  - destruct (_audio_data self) as [|block blocks] eqn:Hdata.
    + split; [done|]. by intros [_ ?].
    + unfold truediv. destruct (decide (SAMPLE_RATE = 0)); split; try done.
      by intros [? _].
Qed.

End recorder_properties.

Lemma recorder_session_witness :
  recorder.is_recording
    (recorder.mkRecorder false [[1; 2]%Q] None) = false ∧
  [[3; 4]; [5]]%Q ≠ [] ∧
  recorder.stop 16000 "/tmp/voice_recording.wav" Qfloor
    (foldl (λ r block, recorder._callback block r)
       (recorder.start 16000 1 recorder.DeviceOk
          (recorder.mkRecorder false [[1; 2]%Q] None)).1 [[3; 4]; [5]]%Q)
  = (recorder.mkRecorder false [[3; 4]; [5]]%Q None,
     Returned (recorder.mkWavFile "/tmp/voice_recording.wav" 16000 [3; 4; 5])).
Proof.
  split; [reflexivity|]. split; [discriminate|].
  apply (recorder_session 16000 1 "/tmp/voice_recording.wav" Qfloor
           (recorder.mkRecorder false [[1; 2]%Q] None) [[3; 4]; [5]]%Q);
    [reflexivity|discriminate].
Defined.

Lemma recorder_stop_without_data_witness :
  recorder.is_recording recorder.init = false ∧
  ∃ stopped,
    recorder.stop 16000 "/tmp/voice_recording.wav" Qfloor
      (recorder.start 16000 1 recorder.DeviceOk recorder.init).1
    = (stopped, Raised "録音データがありません") ∧
    recorder.is_recording stopped = false.
Proof.
  split; [reflexivity|].
  destruct (recorder_stop_without_data 16000 1 "/tmp/voice_recording.wav" Qfloor
              recorder.init eq_refl) as (stopped & Hstop & Hidle & _).
  exists stopped. split; assumption.
Defined.

Lemma recorder_stream_invariant_witness :
  (recorder.is_recording
     (recorder.mkRecorder true [[1; 2]%Q] (Some (recorder.mkInputStream 16000 1)))
   = true ∧
   recorder._stream
     (recorder.mkRecorder true [[1; 2]%Q] (Some (recorder.mkInputStream 16000 1)))
   ≠ None) ∧
  recorder.stop 16000 "/tmp/voice_recording.wav" Qfloor
    (recorder.mkRecorder true [[1; 2]%Q] (Some (recorder.mkInputStream 16000 1)))
  = (recorder.mkRecorder false [[1; 2]%Q] None,
     Returned (recorder.mkWavFile "/tmp/voice_recording.wav" 16000 [1; 2])) ∧
  recorder.is_recording
    (recorder.stop 16000 "/tmp/voice_recording.wav" Qfloor
       (recorder.mkRecorder true [[1; 2]%Q]
          (Some (recorder.mkInputStream 16000 1)))).1 = false ∧
  (∀ block,
     recorder.is_recording
       (recorder._callback block
          (recorder.mkRecorder true [[1; 2]%Q]
             (Some (recorder.mkInputStream 16000 1)))) = true →
     recorder._stream
       (recorder._callback block
          (recorder.mkRecorder true [[1; 2]%Q]
             (Some (recorder.mkInputStream 16000 1)))) ≠ None).
Proof.
  assert (Hinv :
    recorder.is_recording
      (recorder.mkRecorder true [[1; 2]%Q] (Some (recorder.mkInputStream 16000 1)))
    = true →
    recorder._stream
      (recorder.mkRecorder true [[1; 2]%Q] (Some (recorder.mkInputStream 16000 1)))
    ≠ None)
    by (intros _; discriminate).
  split; [split; [reflexivity|discriminate]|].
  split; [reflexivity|].
  split.
  - apply (recorder_stream_invariant 16000 1 "/tmp/voice_recording.wav" Qfloor
             _ Hinv).
  - apply (recorder_stream_invariant 16000 1 "/tmp/voice_recording.wav" Qfloor
             _ Hinv).
Defined.

(** ** [_format_timestamp] and [_format_duration] *)

Section format_properties.
Import VoiceToMdApp.

Lemma Qfloor_unique (x : Q) (z : Z) :
  (inject_Z z <= x)%Q → (x < inject_Z (z + 1))%Q → Qfloor x = z.
Proof.
  intros Hle Hlt.
  pose proof (Qfloor_le x) as Hfloor. pose proof (Qlt_floor x) as Hfloor'.
  assert (H1 : z < Qfloor x + 1).
  { rewrite Zlt_Qlt. by eapply Qle_lt_trans. }
  assert (H2 : Qfloor x < z + 1).
  { rewrite Zlt_Qlt. by eapply Qle_lt_trans. }
  lia.
Qed.

Lemma py_int_inject_Z (z : Z) : py_int (inject_Z z) = z.
Proof.
  unfold py_int. destruct (float_lt (inject_Z z) 0); [apply Qceiling_Z|apply Qfloor_Z].
Qed.

Lemma Qfloor_div_60 (seconds : Q) : Qfloor (seconds / 60) = Qfloor seconds `div` 60.
Proof.
  pose proof (Qfloor_le (seconds / 60)) as Hq. pose proof (Qlt_floor (seconds / 60)) as Hq'.
  pose proof (Qfloor_le seconds) as Hs. pose proof (Qlt_floor seconds) as Hs'.
  set (q := Qfloor (seconds / 60)) in *. set (n := Qfloor seconds) in *.
  rewrite inject_Z_plus in Hq', Hs'. change (inject_Z 1) with 1%Q in Hq', Hs'.
  assert (Heq : (seconds == (seconds / 60) * 60)%Q) by field.
  set (x := (seconds / 60)%Q) in *.
  assert (H1 : 60 * q < n + 1).
  { rewrite Zlt_Qlt, inject_Z_plus, inject_Z_mult.
    change (inject_Z 60) with 60%Q. change (inject_Z 1) with 1%Q. lra. }
  assert (H2 : n < 60 * q + 60).
  { rewrite Zlt_Qlt, inject_Z_plus, inject_Z_mult.
    change (inject_Z 60) with 60%Q. lra. }
  apply (Z.div_unique_pos n 60 q (n - 60 * q)); lia.
Qed.

Lemma minutes_of_seconds (seconds : Q) :
  py_int (float_floordiv seconds 60) = Qfloor seconds `div` 60.
Proof. unfold float_floordiv. by rewrite py_int_inject_Z, Qfloor_div_60. Qed.

Lemma secs_of_seconds (seconds : Q) :
  py_int (float_mod seconds 60) = Qfloor seconds `mod` 60.
Proof.
  unfold float_mod. rewrite Qfloor_div_60.
  pose proof (Qfloor_le seconds) as Hs. pose proof (Qlt_floor seconds) as Hs'.
  set (n := Qfloor seconds) in *.
  rewrite inject_Z_plus in Hs'. change (inject_Z 1) with 1%Q in Hs'.
  pose proof (Z.mod_pos_bound n 60 ltac:(lia)) as Hmod.
  pose proof (Z.div_mod n 60 ltac:(lia)) as Hdm.
  assert (Hn : inject_Z n = (60 * inject_Z (n `div` 60) + inject_Z (n `mod` 60))%Q).
  { rewrite Hdm at 1. by rewrite inject_Z_plus, inject_Z_mult. }
  assert (H0 : (0 <= inject_Z (n `mod` 60))%Q).
  { change 0%Q with (inject_Z 0). rewrite <- Zle_Qle. lia. }
  assert (Hfloor : Qfloor (seconds - 60 * inject_Z (n `div` 60)) = n `mod` 60).
  { apply Qfloor_unique.
    - rewrite Hn in Hs. lra.
    - rewrite inject_Z_plus. change (inject_Z 1) with 1%Q. rewrite Hn in Hs'. lra. }
  unfold py_int.
  destruct (float_lt (seconds - 60 * inject_Z (n `div` 60)) 0) eqn:Hneg; [|done].
  apply float_lt_spec in Hneg. rewrite Hn in Hs. lra.
Qed.

(** For a time from 0 up to [2^53] seconds, where the float operations
    are exact, both formatters show whole seconds, rounded down: the
    minutes are the whole seconds divided by 60, the seconds are the
    remainder, between 0 and 59, whatever the fraction of the input. *)
Theorem format_whole_seconds (seconds : Q) :
  (0 <= seconds)%Q → (seconds < inject_Z (2 ^ 53))%Q →
  _format_timestamp seconds
  = format_02d (Qfloor seconds `div` 60) +:+ ":" +:+ format_02d (Qfloor seconds `mod` 60) ∧
  _format_duration seconds
  = pretty (Qfloor seconds `div` 60) +:+ "分" +:+
    format_02d (Qfloor seconds `mod` 60) +:+ "秒" ∧
  0 ≤ Qfloor seconds `div` 60 ∧
  0 ≤ Qfloor seconds `mod` 60 < 60.
Proof.
  intros H0 _. unfold _format_timestamp, _format_duration.
  rewrite minutes_of_seconds, secs_of_seconds. split_and!; try done.
  - apply Z.div_pos; [|lia]. rewrite <- (Qfloor_Z 0). by apply Qfloor_resp_le.
  - apply Z.mod_pos_bound; lia.
  - apply Z.mod_pos_bound; lia.
Qed.

Lemma string_length_app (s1 s2 : string) :
  String.length (s1 +:+ s2) = (String.length s1 + String.length s2)%nat.
Proof. induction s1 as [|c s1 IH]; simpl; [done|]. by rewrite IH. Qed.

Lemma format_02d_length (n : Z) :
  0 ≤ n < 100 → String.length (format_02d n) = 2%nat.
Proof.
  intros Hn.
  assert (Hall : Forall (λ n, String.length (format_02d n) = 2%nat) (seqZ 0 100)).
  { apply (bool_decide_unpack _). vm_compute. exact I. }
  rewrite Forall_forall in Hall. apply Hall, elem_of_seqZ. lia.
Qed.

(** Below 100 minutes a timestamp has the fixed shape [MM:SS]: five
    characters with the colon in the middle. *)
Theorem format_timestamp_width (seconds : Q) :
  (0 <= seconds)%Q → (seconds < 6000)%Q →
  String.length (_format_timestamp seconds) = 5%nat ∧
  String.get 2 (_format_timestamp seconds) = String.get 0 ":".
Proof.
  intros H0 Hlt. unfold _format_timestamp.
  rewrite minutes_of_seconds, secs_of_seconds.
  assert (Hn0 : 0 ≤ Qfloor seconds).
  { rewrite <- (Qfloor_Z 0). by apply Qfloor_resp_le. }
  assert (Hn1 : Qfloor seconds < 6000).
  { rewrite Zlt_Qlt. eapply Qle_lt_trans; [apply Qfloor_le|done]. }
  assert (Hm : 0 ≤ Qfloor seconds `div` 60 < 100).
  { split; [apply Z.div_pos; lia|apply Z.div_lt_upper_bound; lia]. }
  pose proof (Z.mod_pos_bound (Qfloor seconds) 60 ltac:(lia)) as Hs.
  pose proof (format_02d_length _ Hm) as Hlm.
  pose proof (format_02d_length (Qfloor seconds `mod` 60) ltac:(lia)) as Hls.
  split.
  - rewrite !string_length_app, Hlm, Hls. done.
  - pose proof (String.append_correct2 (format_02d (Qfloor seconds `div` 60))
                  (":" +:+ format_02d (Qfloor seconds `mod` 60)) 0) as Hget.
    rewrite Hlm in Hget. simpl in Hget. by rewrite <- Hget.
Qed.

End format_properties.

Lemma format_whole_seconds_witness :
  (0 <= 754 # 10)%Q ∧ (754 # 10 < inject_Z (2 ^ 53))%Q ∧
  VoiceToMdApp._format_timestamp (754 # 10) = "01:15" ∧
  VoiceToMdApp._format_duration (754 # 10) = "1分15秒".
Proof.
  split; [discriminate|]. split; [reflexivity|].
  destruct (format_whole_seconds (754 # 10)) as (Hts & Hd & _);
    [discriminate|reflexivity|].
  split; [rewrite Hts|rewrite Hd]; reflexivity.
Defined.

Lemma format_timestamp_width_witness :
  (0 <= 754 # 10)%Q ∧ (754 # 10 < 6000)%Q ∧
  String.length (VoiceToMdApp._format_timestamp (754 # 10)) = 5%nat.
Proof.
  split; [discriminate|]. split; [reflexivity|].
  apply (format_timestamp_width (754 # 10)); [discriminate|reflexivity].
Defined.

(** ** The menu bar handlers *)

Section handler_properties.
Import VoiceToMdApp.

Variable to_int16 : Q → Z.

Local Abbreviation toggle_recording := (toggle_recording to_int16).

(** The consistency the handlers rely on holds at start-up and survives
    every event: a click, whatever the sound device does; a block
    delivered to the recorder; and the end of a processing thread.  The
    application's recording flag is the recorder's, recording and
    processing exclude each other, and the title shows which of the
    three states the application is in. *)
Theorem handlers_keep_consistent self :
  consistent self →
  consistent init ∧
  (∀ dev, consistent (toggle_recording dev self).1) ∧
  (∀ block, consistent (audio_callback block self)) ∧
  (_is_processing self = true → consistent (process_audio_finished self)).
Proof.
  intros (Hrec & Hexcl & Hstream & Htitle).
  destruct self as [[rec data stream] recording processing ttl].
  simpl in *. subst rec. split; [|split; [|split]].
  - unfold consistent. simpl. by split_and!.
  - intros dev. unfold VoiceToMdApp.toggle_recording. simpl.
    destruct processing; [by unfold consistent|]. destruct recording; simpl.
    + unfold _stop_recording, Recorder_stop, recorder.stop. simpl.
      destruct stream as [stream|]; [|by destruct (Hstream eq_refl)].
      rewrite bool_decide_eq_false_2 by done. simpl.
      by destruct data.
    + unfold _start_recording, Recorder_start, recorder.start. simpl.
      by destruct dev.
  - intros block. by unfold consistent.
  - intros ->. destruct recording; [by specialize (Hexcl eq_refl)|].
    by unfold consistent.
Qed.

(** A click starts a processing thread only from the recording state
    with recorded data, hands it exactly the recorded blocks, converted
    and put end to end, and leaves the application processing; and while
    the application is processing, clicks change nothing and start
    nothing: at most one thread is in flight. *)
Theorem handlers_single_job dev self self' wav :
  consistent self →
  toggle_recording dev self = (self', Some wav) →
  _is_processing self = false ∧ _is_recording self = true ∧
  _is_processing self' = true ∧ _is_recording self' = false ∧
  recorder._audio_data (_recorder self) ≠ [] ∧
  wav = recorder.mkWavFile config.TEMP_AUDIO_PATH config.SAMPLE_RATE
          (to_int16 <$> concat (recorder._audio_data (_recorder self))) ∧
  ∀ dev', toggle_recording dev' self' = (self', None).
Proof.
  intros (Hrec & Hexcl & Hstream & Htitle).
  destruct self as [[rec data stream] recording processing ttl].
  simpl in *. subst rec. unfold VoiceToMdApp.toggle_recording. simpl.
  destruct processing; [done|]. destruct recording; simpl; [|done].
  unfold _stop_recording, Recorder_stop, recorder.stop. simpl.
  destruct stream as [stream|]; [|by destruct (Hstream eq_refl)].
  rewrite bool_decide_eq_false_2 by done. simpl.
  destruct data as [|block data]; [done|]. intros [= <- <-]. done.
Qed.

End handler_properties.

Lemma handlers_keep_consistent_witness :
  VoiceToMdApp.consistent VoiceToMdApp.init ∧
  VoiceToMdApp.consistent
    (VoiceToMdApp.toggle_recording Qfloor recorder.DeviceOk VoiceToMdApp.init).1.
Proof.
  assert (Hinit : VoiceToMdApp.consistent VoiceToMdApp.init).
  { unfold VoiceToMdApp.consistent. simpl. split_and!; try done. }
  split; [exact Hinit|].
  apply (handlers_keep_consistent Qfloor VoiceToMdApp.init Hinit).
Defined.

Lemma handlers_single_job_witness :
  VoiceToMdApp.consistent
    (VoiceToMdApp.mkApp
       (recorder.mkRecorder true [[1; 2]; [3]]%Q (Some (recorder.mkInputStream 16000 1)))
       true false "🔴 REC") ∧
  VoiceToMdApp.toggle_recording Qfloor recorder.DeviceOk
    (VoiceToMdApp.mkApp
       (recorder.mkRecorder true [[1; 2]; [3]]%Q (Some (recorder.mkInputStream 16000 1)))
       true false "🔴 REC")
  = (VoiceToMdApp.mkApp (recorder.mkRecorder false [[1; 2]; [3]]%Q None)
       false true "⏳ ...",
     Some (recorder.mkWavFile "/tmp/voice_recording.wav" 16000 [1; 2; 3])) ∧
  ∀ dev',
    VoiceToMdApp.toggle_recording Qfloor dev'
      (VoiceToMdApp.mkApp (recorder.mkRecorder false [[1; 2]; [3]]%Q None)
         false true "⏳ ...")
    = (VoiceToMdApp.mkApp (recorder.mkRecorder false [[1; 2]; [3]]%Q None)
         false true "⏳ ...", None).
Proof.
  assert (Hc : VoiceToMdApp.consistent
    (VoiceToMdApp.mkApp
       (recorder.mkRecorder true [[1; 2]; [3]]%Q (Some (recorder.mkInputStream 16000 1)))
       true false "🔴 REC")).
  { unfold VoiceToMdApp.consistent. simpl. split_and!; try done. }
  split; [exact Hc|]. split; [reflexivity|].
  eapply (handlers_single_job Qfloor recorder.DeviceOk _ _ _ Hc). reflexivity.
Defined.

(** ** The pipeline: [diarize], then [_assign_speakers] *)

Section pipeline.

Variables SAMPLE_RATE CHUNK_DURATION_SEC : Z.
Variable embedding : Type.
Variable encode_batch : list Q → embedding.
Variable fit_predict : list embedding → option (list Z).

Local Abbreviation diarize :=
  (diarize SAMPLE_RATE CHUNK_DURATION_SEC embedding encode_batch fit_predict).

Lemma adjacent_tail {A} (R : A → A → Prop) (a : A) (l : list A) :
  adjacent R (a :: l) → adjacent R l.
Proof. intros Hadj i x y Hx Hy. by apply (Hadj (S i)). Qed.

(** Segments that follow one another without gap cover every instant
    between the start of the first and the end of the last. *)
Lemma contiguous_cover (segs : list SpeakerSegment) f l (t : Q) :
  adjacent (λ a b, seg_end a = seg_start b) segs →
  head segs = Some f → last segs = Some l →
  (seg_start f <= t)%Q → (t < seg_end l)%Q →
  ∃ seg, seg ∈ segs ∧ contains seg t.
Proof.
  revert f. induction segs as [|a rest IH]; intros f Hadj Hf Hl Hlo Hhi; [done|].
  injection Hf as ->.
  destruct (Qlt_le_dec t (seg_end f)) as [Hin|Hout].
  - exists f. split; [left|by split].
  - destruct rest as [|b rest].
    + injection Hl as ->. by destruct (Qlt_not_le _ _ Hhi).
    + destruct (IH b) as (seg & Hseg & Hc).
      * by eapply adjacent_tail.
      * done.
      * by rewrite last_cons_cons in Hl.
      * by rewrite <- (Hadj 0%nat f b eq_refl eq_refl).
      * done.
      * exists seg. split; [by right|done].
Qed.

Lemma assign_lookup spans segs (i : nat) r :
  main._assign_speakers spans segs !! i = Some r →
  ar_speaker r = main.scan_speaker_segments (ar_start r) "Unknown" segs.
Proof.
  rewrite assign_speakers_fmap, list_lookup_fmap.
  destruct (spans !! i) as [t|]; [|done]. by intros [= <-].
Qed.

(** For the segments [diarize] returns, the first-match rule is no
    choice: a record's speaker is the label of any segment that contains
    the record's start, because no two segments overlap. *)
Theorem diarize_then_align_unique audio segments spans (i : nat) r seg :
  0 < SAMPLE_RATE →
  diarize audio = Some segments →
  main._assign_speakers spans segments !! i = Some r →
  seg ∈ segments → contains seg (ar_start r) →
  ar_speaker r = seg_label seg.
Proof.
  intros Hsr Hd Hr Hseg Hc. rewrite (assign_lookup _ _ _ _ Hr).
  destruct (diarize_ordered _ _ _ _ _ _ _ Hsr Hd) as (_ & _ & Hsorted & _).
  destruct (scan_speaker_segments_spec (ar_start r) "Unknown" segments)
    as [(seg0 & (j0 & Hj0 & Hc0 & Hfirst) & ->)|[Hnone _]]; last first.
  { by destruct (Hnone seg Hseg). }
  apply list_elem_of_lookup in Hseg as [j Hj].
  destruct (decide (j = j0)) as [->|Hne].
  { rewrite Hj in Hj0. by injection Hj0 as <-. }
  destruct (decide (j < j0)%nat) as [Hlt|Hge].
  { by destruct (Hfirst j seg Hlt Hj). }
  exfalso.
  pose proof (StronglySorted_lookup_1 _ _ j0 j _ _ Hsorted ltac:(lia) Hj0 Hj) as Hle.
  destruct Hc as [Hlo _]. destruct Hc0 as [_ Hhi]. simpl in Hle.
  apply (Qlt_not_le _ _ Hhi). by eapply Qle_trans.
Qed.

(** A record whose start lies between 0 and the end of the last segment
    [diarize] returned never gets the speaker ["Unknown"]: some segment
    contains its start. *)
Theorem diarize_then_align_covered audio segments l spans (i : nat) r :
  0 < SAMPLE_RATE →
  diarize audio = Some segments →
  last segments = Some l →
  main._assign_speakers spans segments !! i = Some r →
  (0 <= ar_start r)%Q → (ar_start r < seg_end l)%Q →
  ar_speaker r ≠ "Unknown" ∧
  ∃ seg, seg ∈ segments ∧ contains seg (ar_start r) ∧ ar_speaker r = seg_label seg.
Proof.
  intros Hsr Hd Hl Hr Hlo Hhi. rewrite (assign_lookup _ _ _ _ Hr).
  destruct (diarize_ordered _ _ _ _ _ _ _ Hsr Hd) as (_ & _ & _ & Hadj & Hzero).
  destruct (head segments) as [f|] eqn:Hf; last first.
  { apply head_None in Hf. by subst segments. }
  destruct (contiguous_cover segments f l (ar_start r) Hadj Hf Hl) as (seg & Hseg & Hc);
    [by rewrite (Hzero f eq_refl)|done|].
  destruct (scan_speaker_segments_spec (ar_start r) "Unknown" segments)
    as [(seg0 & Hfirst & ->)|[Hnone _]]; last first.
  { by destruct (Hnone seg Hseg). }
  destruct (first_containing_elem _ _ _ Hfirst) as [Hseg0 Hc0].
  split; [by eapply diarize_labels|]. by exists seg0.
Qed.

(** Once the audio is loaded at a positive sample rate, lines 95-118 of
    [_process_audio] raise nothing whatever the diarizer and the
    transcriber do, raise included: they hand on one record per
    transcribed segment, in order, with that segment's start, end and
    text, and no record when the transcriber raised. *)
Theorem process_audio_hands_on_transcript
    (diarizer_diarize : list Q → option (list SpeakerSegment))
    (transcriber_transcribe : list Q → option (list TranscriptionSegment)) audio :
  0 < SAMPLE_RATE →
  ∃ duration_str speaker_count merged_segments,
    _process_audio SAMPLE_RATE diarizer_diarize transcriber_transcribe audio
    = Some (duration_str, speaker_count, merged_segments) ∧
    (λ r, (ar_start r, ar_end r, ar_text r)) <$> merged_segments
    = (λ t, (ts_start t, ts_end t, ts_text t))
        <$> default [] (transcriber_transcribe audio).
Proof.
  intros Hpos. unfold _process_audio. rewrite truediv_Some by lia.
  cbn [mbind option_bind].
  destruct (diarizer_diarize audio) as [segments|];
    destruct (transcriber_transcribe audio) as [spans|]; simpl;
    eexists _, _, _; (split; [reflexivity|]);
    rewrite ?assign_speakers_fmap, <- ?list_fmap_compose; done.
Qed.

(** When the diarizer raises, [_process_audio] goes on with one speaker:
    the count is 1, and a record is attributed to ["Speaker 1"] if its
    start lies in [[0, duration)] and to ["Unknown"] otherwise. *)
Theorem process_audio_diarizer_failure
    (diarizer_diarize : list Q → option (list SpeakerSegment))
    (transcriber_transcribe : list Q → option (list TranscriptionSegment)) audio :
  SAMPLE_RATE ≠ 0 →
  diarizer_diarize audio = None →
  ∃ duration duration_str merged_segments,
    load_duration SAMPLE_RATE audio = Some duration ∧
    _process_audio SAMPLE_RATE diarizer_diarize transcriber_transcribe audio
    = Some (duration_str, 1, merged_segments) ∧
    ∀ r, r ∈ merged_segments →
      ((0 <= ar_start r)%Q ∧ (ar_start r < duration)%Q → ar_speaker r = "Speaker 1") ∧
      (¬ ((0 <= ar_start r)%Q ∧ (ar_start r < duration)%Q) → ar_speaker r = "Unknown").
Proof.
  intros Hsr Hraise. unfold _process_audio.
  unfold load_duration. rewrite truediv_Some by done. cbn [mbind option_bind].
  rewrite Hraise. eexists _, _, _. split; [done|]. split; [done|].
  intros r Hr. apply list_elem_of_lookup in Hr as [i Hi].
  rewrite (assign_lookup _ _ _ _ Hi). cbn [main.scan_speaker_segments].
  destruct (float_le 0 (ar_start r) && float_lt (ar_start r) _) eqn:Htest.
  - split; [done|]. intros Hnot. exfalso. apply Hnot.
    apply andb_true_iff in Htest as [Hle Hlt].
    by apply float_le_spec in Hle; apply float_lt_spec in Hlt.
  - split; [|done]. intros [Hle Hlt].
    apply float_le_spec in Hle. apply float_lt_spec in Hlt.
    by rewrite Hle, Hlt in Htest.
Qed.

End pipeline.

(** ** [_assign_speakers], once more *)

(** Each record depends on its own span only: aligning a concatenation
    is concatenating the alignments; and with no speaker segment at all
    every record gets the speaker ["Unknown"]. *)
Theorem assign_speakers_app spans1 spans2 segs :
  main._assign_speakers (spans1 ++ spans2) segs
  = main._assign_speakers spans1 segs ++ main._assign_speakers spans2 segs ∧
  main._assign_speakers spans1 []
  = (λ t, mkAlignedRecord "Unknown" (ts_start t) (ts_end t) (ts_text t)) <$> spans1.
Proof.
  rewrite !assign_speakers_fmap. split; [apply fmap_app|done].
Qed.

(** ** More theorems at concrete inputs *)

Lemma label_map_injective_witness :
  5 ∈ [5; 2; 5; 9] ∧ 9 ∈ [5; 2; 5; 9] ∧
  (label_map [5; 2; 5; 9] !! 5 = label_map [5; 2; 5; 9] !! 9 → 5 = 9).
Proof.
  assert (H5 : 5 ∈ [5; 2; 5; 9]) by apply list_elem_of_here.
  assert (H9 : 9 ∈ [5; 2; 5; 9]).
  { do 3 apply list_elem_of_further. apply list_elem_of_here. }
  split; [exact H5|]. split; [exact H9|].
  exact (label_map_injective [5; 2; 5; 9] 5 9 H5 H9).
Defined.

Lemma get_speaker_count_merger_witness :
  (length [1; 0; 1] ≤ length [(0, 3); (3, 6); (6, 8)]%Q)%nat ∧
  ∃ segments,
    merger [(0, 3); (3, 6); (6, 8)]%Q [1; 0; 1] = Some segments ∧
    get_speaker_count segments = Z.of_nat (size (list_to_set [1; 0; 1] : gset Z)).
Proof.
  assert (Hlen : (length [1; 0; 1] ≤ length [(0, 3); (3, 6); (6, 8)]%Q)%nat).
  { simpl. lia. }
  split; [exact Hlen|].
  exact (get_speaker_count_merger [(0, 3); (3, 6); (6, 8)]%Q [1; 0; 1] Hlen).
Defined.

Lemma diarize_segments_well_formed_witness :
  0 < 1 ∧
  diarize 1 3 unit (λ _, tt) (λ es, Some (imap (λ (i : nat) _, 1 - Z.of_nat i) es))
    [1; 2; 3; 4; 5; 6; 7]%Q
  = Some [(0%Q, 3%Q, "Speaker 2"); (3%Q, 6%Q, "Speaker 1")] ∧
  StronglySorted (λ a b, (seg_end a <= seg_start b)%Q)
    [(0%Q, 3%Q, "Speaker 2"); (3%Q, 6%Q, "Speaker 1")].
Proof.
  split; [reflexivity|]. split; [reflexivity|].
  destruct (diarize_segments_well_formed 1 3 unit (λ _, tt)
              (λ es, Some (imap (λ (i : nat) _, 1 - Z.of_nat i) es))
              [1; 2; 3; 4; 5; 6; 7]%Q
              [(0%Q, 3%Q, "Speaker 2"); (3%Q, 6%Q, "Speaker 1")])
    as (duration & _ & _ & _ & Hsorted & _); [reflexivity|reflexivity|].
  exact Hsorted.
Defined.

Lemma diarize_then_align_unique_witness :
  0 < 1 ∧
  diarize 1 3 unit (λ _, tt) (λ es, Some (imap (λ (i : nat) _, 1 - Z.of_nat i) es))
    [1; 2; 3; 4; 5; 6; 7]%Q
  = Some [(0%Q, 3%Q, "Speaker 2"); (3%Q, 6%Q, "Speaker 1")] ∧
  main._assign_speakers [mkTranscriptionSegment 4 9 "hello"]
    [(0%Q, 3%Q, "Speaker 2"); (3%Q, 6%Q, "Speaker 1")] !! 0%nat
  = Some (mkAlignedRecord "Speaker 1" 4 9 "hello") ∧
  (3%Q, 6%Q, "Speaker 1") ∈ [(0%Q, 3%Q, "Speaker 2"); (3%Q, 6%Q, "Speaker 1")] ∧
  contains (3%Q, 6%Q, "Speaker 1") 4 ∧
  ar_speaker (mkAlignedRecord "Speaker 1" 4 9 "hello") = seg_label (3%Q, 6%Q, "Speaker 1").
Proof.
  assert (Hin : (3%Q, 6%Q, "Speaker 1")
                ∈ [(0%Q, 3%Q, "Speaker 2"); (3%Q, 6%Q, "Speaker 1")]).
  { apply list_elem_of_further, list_elem_of_here. }
  assert (Hc : contains (3%Q, 6%Q, "Speaker 1") 4).
  { unfold contains, Qle, Qlt. simpl. lia. }
  split; [reflexivity|]. split; [reflexivity|]. split; [reflexivity|].
  split; [exact Hin|]. split; [exact Hc|].
  apply (diarize_then_align_unique 1 3 unit (λ _, tt)
           (λ es, Some (imap (λ (i : nat) _, 1 - Z.of_nat i) es))
           [1; 2; 3; 4; 5; 6; 7]%Q
           [(0%Q, 3%Q, "Speaker 2"); (3%Q, 6%Q, "Speaker 1")]
           [mkTranscriptionSegment 4 9 "hello"] 0%nat
           (mkAlignedRecord "Speaker 1" 4 9 "hello") (3%Q, 6%Q, "Speaker 1"));
    [reflexivity|reflexivity|reflexivity|exact Hin|exact Hc].
Defined.

Lemma diarize_then_align_covered_witness :
  0 < 1 ∧
  diarize 1 3 unit (λ _, tt) (λ es, Some (imap (λ (i : nat) _, 1 - Z.of_nat i) es))
    [1; 2; 3; 4; 5; 6; 7]%Q
  = Some [(0%Q, 3%Q, "Speaker 2"); (3%Q, 6%Q, "Speaker 1")] ∧
  last [(0%Q, 3%Q, "Speaker 2"); (3%Q, 6%Q, "Speaker 1")] = Some (3%Q, 6%Q, "Speaker 1") ∧
  main._assign_speakers [mkTranscriptionSegment 4 9 "hello"]
    [(0%Q, 3%Q, "Speaker 2"); (3%Q, 6%Q, "Speaker 1")] !! 0%nat
  = Some (mkAlignedRecord "Speaker 1" 4 9 "hello") ∧
  (0 <= 4)%Q ∧ (4 < 6)%Q ∧
  ar_speaker (mkAlignedRecord "Speaker 1" 4 9 "hello") ≠ "Unknown".
Proof.
  assert (H0 : (0 <= 4)%Q) by (unfold Qle; simpl; lia).
  assert (H6 : (4 < 6)%Q) by reflexivity.
  split; [reflexivity|]. split; [reflexivity|]. split; [reflexivity|].
  split; [reflexivity|]. split; [exact H0|]. split; [exact H6|].
  apply (diarize_then_align_covered 1 3 unit (λ _, tt)
           (λ es, Some (imap (λ (i : nat) _, 1 - Z.of_nat i) es))
           [1; 2; 3; 4; 5; 6; 7]%Q
           [(0%Q, 3%Q, "Speaker 2"); (3%Q, 6%Q, "Speaker 1")]
           (3%Q, 6%Q, "Speaker 1")
           [mkTranscriptionSegment 4 9 "hello"] 0%nat
           (mkAlignedRecord "Speaker 1" 4 9 "hello"));
    [reflexivity|reflexivity|reflexivity|reflexivity|exact H0|exact H6].
Defined.

Lemma process_audio_hands_on_transcript_witness :
  0 < config.SAMPLE_RATE ∧
  ∃ duration_str speaker_count merged_segments,
    _process_audio config.SAMPLE_RATE (λ _, None)
      (λ _, Some [mkTranscriptionSegment 0 1 "a"; mkTranscriptionSegment 5 6 "b"])
      [1; 2; 3]%Q
    = Some (duration_str, speaker_count, merged_segments) ∧
    (λ r, (ar_start r, ar_end r, ar_text r)) <$> merged_segments
    = [(0%Q, 1%Q, "a"); (5%Q, 6%Q, "b")].
Proof.
  split; [reflexivity|].
  apply (process_audio_hands_on_transcript config.SAMPLE_RATE (λ _, None)
           (λ _, Some [mkTranscriptionSegment 0 1 "a"; mkTranscriptionSegment 5 6 "b"])
           [1; 2; 3]%Q).
  reflexivity.
Defined.

Lemma process_audio_diarizer_failure_witness :
  config.SAMPLE_RATE ≠ 0 ∧
  (λ _ : list Q, @None (list SpeakerSegment)) [1; 2; 3]%Q = None ∧
  ∃ duration duration_str merged_segments,
    _process_audio config.SAMPLE_RATE (λ _, None)
      (λ _, Some [mkTranscriptionSegment 0 1 "a"; mkTranscriptionSegment 5 6 "b"])
      [1; 2; 3]%Q
    = Some (duration_str, 1, merged_segments) ∧
    load_duration config.SAMPLE_RATE [1; 2; 3]%Q = Some duration.
Proof.
  split; [discriminate|]. split; [reflexivity|].
  destruct (process_audio_diarizer_failure config.SAMPLE_RATE (λ _, None)
              (λ _, Some [mkTranscriptionSegment 0 1 "a"; mkTranscriptionSegment 5 6 "b"])
              [1; 2; 3]%Q)
    as (duration & duration_str & merged & Hdur & Hprocess & _);
    [discriminate|reflexivity|].
  exists duration, duration_str, merged. split; assumption.
Defined.
